(** * SeqLib: the BamRecord alignment record (SeqLib/BamRecord.h)

    A shallow embedding of the inline methods of [SeqLib::CigarField] and
    [SeqLib::BamRecord], and of the part of the htslib record layout they
    read and write, followed by the properties proved about them.

    Conventions.
    - C integers are [Z]; conversions to a fixed width are written out with
      [Int.int32] and [Int.uint32].
    - The record buffer [data] is a [list byte]; multi-byte fields are read
      and written little-endian, as on the hosts the library targets.
    - A pointer into the record buffer is the list of bytes from the pointee
      to the end of the used part of the buffer.
    - [std::shared_ptr<bam1_t> b] is an [option bam1_t]; [None] is the null
      pointer of the default-constructed record. *)

From Stdlib Require Import ZArith NArith List Bool String Ascii Lia.
From Stdlib.Strings Require Import Byte.
From Stdlib Require Import DecimalString.
From Equations Require Import Equations.
Import ListNotations.

Local Open Scope Z_scope.

(** ** Fixed-width integers *)

Module Int.

Definition uint32 (z : Z) : Z := z mod 2 ^ 32.

Definition int32 (z : Z) : Z := (z + 2 ^ 31) mod 2 ^ 32 - 2 ^ 31.

Definition in_int32 (z : Z) : Prop := - 2 ^ 31 <= z < 2 ^ 31.

Definition in_uint32 (z : Z) : Prop := 0 <= z < 2 ^ 32.

(** [p += x] with [int32_t p] and [uint32_t x]: the addition is done on
    [uint32_t] and the sum converted back. *)
Definition add_assign (p x : Z) : Z := int32 (uint32 (uint32 p + x)).

(** [x + y] and [x - y] on [int32_t], two's complement. *)
Definition add (x y : Z) : Z := int32 (x + y).
Definition sub (x y : Z) : Z := int32 (x - y).

(** A C integer used as a condition. *)
Definition truthy (z : Z) : bool := negb (z =? 0).

(** Bytes as numbers. *)
Definition of_byte (x : byte) : Z := Z.of_N (Byte.to_N x).

Definition to_byte (z : Z) : byte :=
  match Byte.of_N (Z.to_N (z mod 256)) with
  | Some x => x
  | None => x00
  end.

(** [*(uint32_t* )s]: the four bytes at [s], least significant first.
    Bytes past the end of the list read as zero. *)
Definition le32 (s : list byte) : Z :=
  of_byte (nth 0 s x00)
  + 2 ^ 8 * of_byte (nth 1 s x00)
  + 2 ^ 16 * of_byte (nth 2 s x00)
  + 2 ^ 24 * of_byte (nth 3 s x00).

Definition int8 (z : Z) : Z := (z + 2 ^ 7) mod 2 ^ 8 - 2 ^ 7.

Definition int16 (z : Z) : Z := (z + 2 ^ 15) mod 2 ^ 16 - 2 ^ 15.

Definition le16 (s : list byte) : Z :=
  of_byte (nth 0 s x00) + 2 ^ 8 * of_byte (nth 1 s x00).

(** The object representation of a 32-bit integer. *)
Definition le32_bytes (z : Z) : list byte :=
  [ to_byte z; to_byte (Z.shiftr z 8); to_byte (Z.shiftr z 16);
    to_byte (Z.shiftr z 24) ].

End Int.

(** ** htslib declarations used by the header *)

Module Hts.

(** The header includes htslib's [sam.h], which is not part of the
    sources.  The flag bits below have the values of the SAM format. *)

(** Modelled from the spec: the flag bit "paired". *)
Definition BAM_FPAIRED : Z := 1.

(** Modelled from the spec: the flag bit "proper pair". *)
Definition BAM_FPROPER_PAIR : Z := 2.

(** Modelled from the spec: the flag bit "unmapped". *)
Definition BAM_FUNMAP : Z := 4.

(** Modelled from the spec: the flag bit "mate unmapped". *)
Definition BAM_FMUNMAP : Z := 8.

(** Modelled from the spec: the flag bit "reverse strand". *)
Definition BAM_FREVERSE : Z := 16.

(** Modelled from the spec: the flag bit "mate on the reverse strand". *)
Definition BAM_FMREVERSE : Z := 32.

(** Modelled from the spec: the flag bit "first read of the pair". *)
Definition BAM_FREAD1 : Z := 64.

(** Modelled from the spec: the flag bit "second read of the pair". *)
Definition BAM_FREAD2 : Z := 128.

(** Modelled from the spec: the flag bit "secondary alignment". *)
Definition BAM_FSECONDARY : Z := 256.

(** Modelled from the spec: the flag bit "failed quality control". *)
Definition BAM_FQCFAIL : Z := 512.

(** Modelled from the spec: the flag bit "duplicate". *)
Definition BAM_FDUP : Z := 1024.

(** Modelled from the spec: the core fields of htslib's [bam1_core_t]
    that the header reads (chromosome ids, positions, mapping quality,
    flag word and the three region sizes). *)
Record bam1_core_t := mk_core {
  tid : Z;
  pos : Z;
  qual : Z;
  l_qname : Z;
  flag : Z;
  n_cigar : Z;
  l_qseq : Z;
  mtid : Z;
  mpos : Z;
  isize : Z
}.

(** Modelled from the spec: htslib's [bam1_t], the core fields followed
    by one variable-length buffer holding the name, the cigar array, the
    packed sequence, the qualities and the tags, in that order. *)
Record bam1_t := mk_bam1 {
  core : bam1_core_t;
  l_data : Z;
  m_data : Z;
  data : list byte
}.

End Hts.

Import Hts.

(** ** Orientation codes (the macros at the top of the header) *)

Definition FRORIENTATION : Z := 0.
Definition FFORIENTATION : Z := 1.
Definition RFORIENTATION : Z := 2.
Definition RRORIENTATION : Z := 3.
Definition UDORIENTATION : Z := 4.

(** ** The record handle *)

Record BamRecord := mkBamRecord { b : option bam1_t }.

(** [BamRecord() {}]: no memory allocated. *)
Definition empty_record : BamRecord := {| b := None |}.

Definition isEmpty (r : BamRecord) : bool :=
  match b r with Some _ => false | None => true end.

(** [b ? e : d] *)
Definition guarded {A : Type} (r : BamRecord) (e : bam1_t -> A) (d : A) : A :=
  match b r with Some a => e a | None => d end.

Definition flag_set (a : bam1_t) (mask : Z) : bool :=
  negb (Z.land (flag (core a)) mask =? 0).

Definition flag_clear (a : bam1_t) (mask : Z) : bool :=
  Z.land (flag (core a)) mask =? 0.

(** ** Guarded flag accessors *)

Definition ReverseFlag (r : BamRecord) : bool :=
  guarded r (fun a => flag_set a BAM_FREVERSE) false.

Definition MateReverseFlag (r : BamRecord) : bool :=
  guarded r (fun a => flag_set a BAM_FMREVERSE) false.

Definition DuplicateFlag (r : BamRecord) : bool :=
  guarded r (fun a => flag_set a BAM_FDUP) false.

Definition SecondaryFlag (r : BamRecord) : bool :=
  guarded r (fun a => flag_set a BAM_FSECONDARY) false.

Definition PairedFlag (r : BamRecord) : bool :=
  guarded r (fun a => flag_set a BAM_FPAIRED) false.

Definition QCFailFlag (r : BamRecord) : bool :=
  guarded r (fun a => flag_set a BAM_FQCFAIL) false.

Definition MappedFlag (r : BamRecord) : bool :=
  guarded r (fun a => flag_clear a BAM_FUNMAP) false.

Definition MateMappedFlag (r : BamRecord) : bool :=
  guarded r (fun a => flag_clear a BAM_FMUNMAP) false.

(** [!(flag&BAM_FMUNMAP) && !(flag&BAM_FUNMAP) && (flag&BAM_FPAIRED)] *)
Definition PairMappedFlag (r : BamRecord) : bool :=
  guarded r
    (fun a =>
       negb (Int.truthy (Z.land (flag (core a)) BAM_FMUNMAP))
       && negb (Int.truthy (Z.land (flag (core a)) BAM_FUNMAP))
       && Int.truthy (Z.land (flag (core a)) BAM_FPAIRED))
    false.

Definition ProperPair (r : BamRecord) : bool :=
  guarded r (fun a => Int.truthy (Z.land (flag (core a)) BAM_FPROPER_PAIR)) false.

Definition Interchromosomal (r : BamRecord) : bool :=
  guarded r
    (fun a => negb (tid (core a) =? mtid (core a)) && PairMappedFlag r)
    false.

(** ** Guarded field accessors *)

Definition Position (r : BamRecord) : Z := guarded r (fun a => pos (core a)) (-1).

Definition MatePosition (r : BamRecord) : Z := guarded r (fun a => mpos (core a)) (-1).

Definition ChrID (r : BamRecord) : Z := guarded r (fun a => tid (core a)) (-1).

Definition MateChrID (r : BamRecord) : Z := guarded r (fun a => mtid (core a)) (-1).

Definition MapQuality (r : BamRecord) : Z := guarded r (fun a => qual (core a)) (-1).

Definition CigarSize (r : BamRecord) : Z := guarded r (fun a => n_cigar (core a)) (-1).

Section EndPosition.

(** htslib's [bam_endpos] is an external function; [PositionEnd] only
    forwards to it, so it is kept abstract. *)
Variable bam_endpos : bam1_t -> Z.

Definition PositionEnd (r : BamRecord) : Z := guarded r bam_endpos (-1).

End EndPosition.

(** ** Pair orientation *)

(** The function returns [int]; [None] stands for reaching [assert(false)]
    at its end. *)
Definition PairOrientation (r : BamRecord) : option Z :=
  if negb (PairMappedFlag r) then Some UDORIENTATION
  else if (negb (ReverseFlag r) && (Position r <=? MatePosition r) && MateReverseFlag r)
          || (ReverseFlag r && (Position r >=? MatePosition r) && negb (MateReverseFlag r))
  then Some FRORIENTATION
  else if negb (ReverseFlag r) && negb (MateReverseFlag r) then Some FFORIENTATION
  else if ReverseFlag r && MateReverseFlag r then Some RRORIENTATION
  else if (ReverseFlag r && (Position r <? MatePosition r) && negb (MateReverseFlag r))
          || (negb (ReverseFlag r) && (Position r >? MatePosition r) && MateReverseFlag r)
  then Some RFORIENTATION
  else None.

Definition ProperOrientation (r : BamRecord) : bool :=
  match b r with
  | None => false
  | Some a =>
      if negb (tid (core a) =? mtid (core a)) then false
      else if pos (core a) <? mpos (core a) then
        if (Z.land (flag (core a)) BAM_FREVERSE =? 0)
           && negb (Z.land (flag (core a)) BAM_FMREVERSE =? 0)
        then true else false
      else
        if (Z.land (flag (core a)) BAM_FREVERSE =? 0)
           && negb (Z.land (flag (core a)) BAM_FMREVERSE =? 0)
        then false else true
  end.

(** ** CIGAR operations *)

Module HtsCigar.

(** The cigar macros of htslib's [sam.h], which is not part of the
    sources. *)

(** Modelled from the spec: the kind characters, in the fixed order of the
    kind codes 0 to 9. *)
Definition BAM_CIGAR_STR : string := "MIDNSHP=XB".

(** Modelled from the spec: the length sits above the low 4 bits. *)
Definition BAM_CIGAR_SHIFT : Z := 4.

(** Modelled from the spec: the kind code is the low 4 bits. *)
Definition BAM_CIGAR_MASK : Z := 15.

(** Modelled from the spec: the property table of the kinds, two bits per
    kind code: bit 0 for consuming the query (M, I, S, =, X), bit 1 for
    consuming the reference (M, D, N, =, X). *)
Definition BAM_CIGAR_TYPE : Z := 0x3C1A7.

(** Modelled from the spec: kind code of a match, [M]. *)
Definition BAM_CMATCH : Z := 0.

(** Modelled from the spec: kind code of an insertion, [I]. *)
Definition BAM_CINS : Z := 1.

(** Modelled from the spec: kind code of a deletion, [D]. *)
Definition BAM_CDEL : Z := 2.

(** Modelled from the spec: kind code of a reference skip, [N]. *)
Definition BAM_CREF_SKIP : Z := 3.

(** Modelled from the spec: kind code of a soft clip, [S]. *)
Definition BAM_CSOFT_CLIP : Z := 4.

(** Modelled from the spec: kind code of a hard clip, [H]. *)
Definition BAM_CHARD_CLIP : Z := 5.

(** Modelled from the spec: kind code of a padding, [P]. *)
Definition BAM_CPAD : Z := 6.

(** Modelled from the spec: kind code of a sequence match, [=]. *)
Definition BAM_CEQUAL : Z := 7.

(** Modelled from the spec: kind code of a sequence mismatch, [X]. *)
Definition BAM_CDIFF : Z := 8.

(** Modelled from the spec: kind code 9, [B], the last of the alphabet. *)
Definition BAM_CBACK : Z := 9.

(** Modelled from the spec: the macro [bam_cigar_op], the kind code in the
    low 4 bits of a packed operation. *)
Definition bam_cigar_op (c : Z) : Z := Z.land c BAM_CIGAR_MASK.

(** Modelled from the spec: the macro [bam_cigar_oplen], the length in the
    high 28 bits of a packed operation. *)
Definition bam_cigar_oplen (c : Z) : Z := Z.shiftr c BAM_CIGAR_SHIFT.

(** Modelled from the spec: the macro [bam_cigar_opchr], the kind
    character of a packed operation; a code past the end of the alphabet
    reads as ['?']. *)
Definition bam_cigar_opchr (c : Z) : ascii :=
  match String.get (Z.to_nat (bam_cigar_op c)) BAM_CIGAR_STR with
  | Some ch => ch
  | None => "?"%char
  end.

(** Modelled from the spec: the macro [bam_cigar_type], the two property
    bits of a kind code. *)
Definition bam_cigar_type (o : Z) : Z :=
  Z.land (Z.shiftr BAM_CIGAR_TYPE (Z.shiftl o 1)) 3.

(** Modelled from the spec: the macro [bam_cigar_gen], which packs a
    length and a kind code in a 32-bit word. *)
Definition bam_cigar_gen (l o : Z) : Z :=
  Z.lor (Int.uint32 (Z.shiftl l BAM_CIGAR_SHIFT)) o.

End HtsCigar.

Import HtsCigar.

(** [class CigarField]: one operation in the packed 32-bit form. *)
Record CigarField := mkCigarField { raw : Z }.

Module Field.

Definition Type_ (c : CigarField) : ascii := bam_cigar_opchr (raw c).

Definition RawType (c : CigarField) : Z := bam_cigar_op (raw c).

Definition Length (c : CigarField) : Z := bam_cigar_oplen (raw c).

Definition ConsumesReference (c : CigarField) : bool :=
  Int.truthy (Z.land (bam_cigar_type (bam_cigar_op (raw c))) 2).

Definition ConsumesQuery (c : CigarField) : bool :=
  Int.truthy (Z.land (bam_cigar_type (bam_cigar_op (raw c))) 1).

End Field.

(** [class Cigar]: the vector [m_data] of operations; [add] is [push_back]. *)
Definition Cigar : Type := list CigarField.

Definition add (cig : Cigar) (c : CigarField) : Cigar := cig ++ [c].

(** ** Loops over the cigar array *)

Inductive step (S : Type) : Type :=
| Continue (s : S)
| Break (s : S).

Arguments Continue {S} s.
Arguments Break {S} s.

(** [for (i = i0; i < i0 + count; ++i) body] *)
Fixpoint for_up {S : Type} (count i : nat) (body : nat -> S -> step S) (s : S) : S :=
  match count with
  | O => s
  | Datatypes.S k =>
      match body i s with
      | Continue s' => for_up k (Datatypes.S i) body s'
      | Break s' => s'
      end
  end.

(** [for (i = n - 1; i >= 0; --i) body] *)
Fixpoint for_down {S : Type} (n : nat) (body : nat -> S -> step S) (s : S) : S :=
  match n with
  | O => s
  | Datatypes.S i =>
      match body i s with
      | Continue s' => for_down i body s'
      | Break s' => s'
      end
  end.

(** Modelled from the spec: htslib's [bam_get_cigar], the cigar array
    starts right after the name in the record buffer. *)
Definition bam_get_cigar (a : bam1_t) : list byte :=
  skipn (Z.to_nat (l_qname (core a))) (data a).

(** [c[i]] for [uint32_t* c] *)
Definition word_at (c : list byte) (i : nat) : Z := Int.le32 (skipn (4 * i) c).

(** The trip count of the loops over the cigar array; [n_cigar] is an
    unsigned field. *)
Definition ncigar (a : bam1_t) : nat := Z.to_nat (n_cigar (core a)).

(** [bam_cigar_opchr(c) == ch] *)
Definition is_chr (c : Z) (ch : ascii) : bool :=
  if ascii_dec (bam_cigar_opchr c) ch then true else false.

(** ** Unguarded accessors: they dereference [b], so they are functions of
    the record [b] points to. *)

Definition Length (a : bam1_t) : Z := l_qseq (core a).

Definition MaxInsertionBases (a : bam1_t) : Z :=
  let c := bam_get_cigar a in
  for_up (ncigar a) 0
    (fun i imax =>
       if is_chr (word_at c i) "I"
       then Continue (Z.max (bam_cigar_oplen (word_at c i)) imax)
       else Continue imax)
    0.

Definition MaxDeletionBases (a : bam1_t) : Z :=
  let c := bam_get_cigar a in
  for_up (ncigar a) 0
    (fun i dmax =>
       if is_chr (word_at c i) "D"
       then Continue (Z.max (bam_cigar_oplen (word_at c i)) dmax)
       else Continue dmax)
    0.

Definition NumMatchBases (a : bam1_t) : Z :=
  let c := bam_get_cigar a in
  for_up (ncigar a) 0
    (fun i dmax =>
       if is_chr (word_at c i) "M"
       then Continue (Int.uint32 (dmax + bam_cigar_oplen (word_at c i)))
       else Continue dmax)
    0.

Definition GetCigar (a : bam1_t) : Cigar :=
  let c := bam_get_cigar a in
  for_up (ncigar a) 0
    (fun k cig => Continue (add cig (mkCigarField (word_at c k))))
    [].

Definition GetReverseCigar (a : bam1_t) : Cigar :=
  let c := bam_get_cigar a in
  for_down (ncigar a)
    (fun k cig => Continue (add cig (mkCigarField (word_at c k))))
    [].

Definition AlignmentPositionReverse (a : bam1_t) : Z :=
  let c := bam_get_cigar a in
  for_down (ncigar a)
    (fun i p =>
       if is_chr (word_at c i) "S" || is_chr (word_at c i) "H"
       then Continue (Int.add_assign p (bam_cigar_oplen (word_at c i)))
       else Break p)
    0.

Definition AlignmentEndPositionReverse (a : bam1_t) : Z :=
  let c := bam_get_cigar a in
  let p :=
    for_up (ncigar a) 0
      (fun i p =>
         if is_chr (word_at c i) "S" || is_chr (word_at c i) "H"
         then Continue (Int.add_assign p (bam_cigar_oplen (word_at c i)))
         else Break p)
      0 in
  Int.sub (l_qseq (core a)) p.

Definition AlignmentPosition (a : bam1_t) : Z :=
  let c := bam_get_cigar a in
  for_up (ncigar a) 0
    (fun i p =>
       if is_chr (word_at c i) "S" || is_chr (word_at c i) "H"
       then Continue (Int.add_assign p (bam_cigar_oplen (word_at c i)))
       else Break p)
    0.

Definition AlignmentEndPosition (a : bam1_t) : Z :=
  let c := bam_get_cigar a in
  let p :=
    for_down (ncigar a)
      (fun i p =>
         if is_chr (word_at c i) "S" || is_chr (word_at c i) "H"
         then Continue (Int.add_assign p (bam_cigar_oplen (word_at c i)))
         else Break p)
      0 in
  Int.sub (l_qseq (core a)) p.

Definition NumSoftClip (a : bam1_t) : Z :=
  let c := bam_get_cigar a in
  for_up (ncigar a) 0
    (fun i p =>
       if is_chr (word_at c i) "S"
       then Continue (Int.add_assign p (bam_cigar_oplen (word_at c i)))
       else Continue p)
    0.

Definition NumHardClip (a : bam1_t) : Z :=
  let c := bam_get_cigar a in
  for_up (ncigar a) 0
    (fun i p =>
       if is_chr (word_at c i) "H"
       then Continue (Int.add_assign p (bam_cigar_oplen (word_at c i)))
       else Continue p)
    0.

Definition NumClip (a : bam1_t) : Z :=
  let c := bam_get_cigar a in
  for_up (ncigar a) 0
    (fun i p =>
       if is_chr (word_at c i) "S" || is_chr (word_at c i) "H"
       then Continue (Int.add_assign p (bam_cigar_oplen (word_at c i)))
       else Continue p)
    0.

(** [cig << n] for an unsigned integer: its decimal digits. *)
Definition decimal (n : Z) : string := NilZero.string_of_uint (N.to_uint (Z.to_N n)).

(** ["MIDNSHP=XB"[k]]; index 10 is the terminator of the literal, and the
    indices past it, outside the literal, are read as the terminator too. *)
Definition cigar_alphabet (k : Z) : ascii :=
  match String.get (Z.to_nat k) "MIDNSHP=XB" with
  | Some ch => ch
  | None => zero
  end.

Definition CigarString (a : bam1_t) : string :=
  let c := bam_get_cigar a in
  for_up (ncigar a) 0
    (fun k cig =>
       Continue (cig ++ decimal (bam_cigar_oplen (word_at c k))
                     ++ String (cigar_alphabet (Z.land (word_at c k) BAM_CIGAR_MASK)) ""))%string
    ""%string.

(** ** The tag region *)

Inductive outcome (A : Type) : Type :=
| Returns (x : A)
| Aborts.

Arguments Returns {A} x.
Arguments Aborts {A}.

(** [*s] and [s + n] for a pointer [s] into the record buffer; a read
    past the used part of the buffer gives zero. *)
Definition deref (s : list byte) : byte := nth 0 s x00.

Definition advance (s : list byte) (n : nat) : list byte := skipn n s.

(** [realloc(d, n)]: the first [n] bytes are kept; bytes gained by a
    growing block are indeterminate and read as zero here. *)
Definition realloc (d : list byte) (n : nat) : list byte :=
  firstn n d ++ repeat x00 (n - List.length d).

Module HtsAux.

(** The tag functions of htslib ([sam.h] and [sam.c]), which are not part
    of the sources.  The tags follow the qualities in the record buffer,
    as an ordered list of entries: a 2-character key, a type code, and a
    payload whose size the type code gives.  Lookup scans the entries
    forward and returns the first whose key matches; appending writes a
    new entry after the last one. *)

(** Modelled from the spec: the macro [bam_get_aux], the address of the
    first tag, after the name, the cigar array, the packed bases and the
    qualities; the tags end where the used part of the buffer ends. *)
Definition bam_get_aux (a : bam1_t) : list byte :=
  skipn
    (Z.to_nat (Z.shiftl (n_cigar (core a)) 2 + l_qname (core a)
               + l_qseq (core a) + Z.shiftr (l_qseq (core a) + 1) 1))
    (firstn (Z.to_nat (l_data a)) (data a)).

(** Modelled from the spec: the payload size of a type code; the codes
    [Z], [H] and [B] stand for themselves, an unknown code gives 0. *)
Definition aux_type2size (type : byte) : Z :=
  match ascii_of_byte type with
  | "A" | "c" | "C" => 1
  | "s" | "S" => 2
  | "i" | "I" | "f" => 4
  | "d" => 8
  | "Z" | "H" | "B" => Int.of_byte type
  | _ => 0
  end%char.

(** Modelled from the spec: the loop [while ( *s) ++s;] over a string
    payload, within the used part of the buffer. *)
Fixpoint skip_nonzero (s : list byte) : list byte :=
  match s with
  | [] => []
  | x :: s' => if Int.of_byte x =? 0 then s else skip_nonzero s'
  end.

(** Modelled from the spec: [skip_aux] steps over one payload, [s]
    pointing at its type code; an unknown type code aborts the process. *)
Definition skip_aux (s : list byte) : option (list byte) :=
  let size := aux_type2size (deref s) in
  let s := advance s 1 in
  if (size =? 90) || (size =? 72) then Some (advance (skip_nonzero s) 1)
  else if size =? 66 then
    let size := aux_type2size (deref s) in
    let s := advance s 1 in
    let n := Int.le32 s in
    let s := advance s 4 in
    Some (advance s (Z.to_nat (Int.uint32 (size * n))))
  else if size =? 0 then None
  else Some (advance s (Z.to_nat size)).

(** Modelled from the spec: the two key characters as one number,
    [s[0]<<8 | s[1]], the characters taken as unsigned. *)
Definition key16 (k0 k1 : byte) : Z :=
  Z.lor (Z.shiftl (Int.of_byte k0) 8) (Int.of_byte k1).

(** Modelled from the spec: the scan of [bam_aux_get], [s] running from
    the first tag to the end of the used part of the buffer.  It returns
    the address of the type code of the first tag whose key is [y], or
    null. *)
Equations? aux_scan (y : Z) (s : list byte) : outcome (option (list byte))
  by wf (List.length s) lt :=
  aux_scan y [] := Returns None;
  aux_scan y (k0 :: s1) with key16 k0 (deref s1) =? y := {
    | true := Returns (Some (advance s1 1))
    | false with Equations.Prop.Logic.inspect (skip_aux (advance s1 1)) := {
        | exist _ None _ := Aborts
        | exist _ (Some s') Hskip := aux_scan y s' } }.
Proof.
  assert (Hnz : forall t, (List.length (skip_nonzero t) <= List.length t)%nat).
  { induction t as [|x t IH]; simpl; [lia|].
    destruct (Int.of_byte x =? 0); simpl; lia. }
  assert (Hadv : forall t n, (List.length (advance t n) <= List.length t)%nat).
  { intros t n. unfold advance. rewrite length_skipn. lia. }
  assert (Hle : forall t r, skip_aux t = Some r ->
                            (List.length r <= List.length t)%nat).
  { intros t r Ht. unfold skip_aux in Ht.
    repeat match type of Ht with
           | (if ?c then _ else _) = _ => destruct c
           end;
      try discriminate;
      match type of Ht with
      | Some ?x = Some _ => assert (E : r = x) by congruence; rewrite E
      end;
      repeat match goal with
             | |- context [advance ?x ?n] =>
                 lazymatch goal with
                 | _ : (List.length (advance x n) <= _)%nat |- _ => fail
                 | _ => pose proof (Hadv x n)
                 end
             end;
      try pose proof (Hnz (advance t 1));
      lia. }
  apply Hle in Hskip. destruct s1 as [|x s1]; simpl in Hskip |- *; lia.
Qed.

(** [tag[i]] for the characters of a [std::string]. *)
Definition key_byte (tag : string) (i : nat) : byte :=
  nth i (list_byte_of_string tag) x00.

(** Modelled from the spec: [bam_aux_get], the lookup of a tag by its
    2-character key. *)
Definition bam_aux_get (a : bam1_t) (tag : string) : outcome (option (list byte)) :=
  aux_scan (key16 (key_byte tag 0) (key_byte tag 1)) (bam_get_aux a).

(** Modelled from the spec: [bam_aux2i], the integer held by the tag
    whose type code [s] points at; 0 for a tag that holds no integer. *)
Definition bam_aux2i (s : list byte) : Z :=
  let type := ascii_of_byte (deref s) in
  let s := advance s 1 in
  match type with
  | "c" => Int.int8 (Int.of_byte (deref s))
  | "C" => Int.of_byte (deref s)
  | "s" => Int.int16 (Int.le16 s)
  | "S" => Int.le16 s
  | "i" | "I" => Int.int32 (Int.le32 s)
  | _ => 0
  end%char.

(** Modelled from the spec: the macro [kroundup32], which rounds up to
    the next power of two on 32 bits. *)
Definition kroundup32 (x : Z) : Z :=
  let x := Int.uint32 (x - 1) in
  let x := Z.lor x (Z.shiftr x 1) in
  let x := Z.lor x (Z.shiftr x 2) in
  let x := Z.lor x (Z.shiftr x 4) in
  let x := Z.lor x (Z.shiftr x 8) in
  let x := Z.lor x (Z.shiftr x 16) in
  Int.uint32 (x + 1).

(** Modelled from the spec: [bam_aux_append] writes the new tag at offset
    [l_data], after the tags already there, and moves [l_data] past it. *)
Definition bam_aux_append (a : bam1_t) (tag : string) (type : byte)
           (len : Z) (d : list byte) : bam1_t :=
  let ori_len := l_data a in
  let l := Int.int32 (ori_len + 3 + len) in
  {| core := core a;
     l_data := l;
     m_data := if m_data a <? l then kroundup32 l else m_data a;
     data := realloc (data a) (Z.to_nat ori_len)
             ++ [key_byte tag 0; key_byte tag 1; type]
             ++ firstn (Z.to_nat len) d |}.

End HtsAux.

Import HtsAux.

Definition GetIntTag (a : bam1_t) (tag : string) : outcome Z :=
  match bam_aux_get a tag with
  | Aborts => Aborts
  | Returns None => Returns 0
  | Returns (Some p) => Returns (bam_aux2i p)
  end.

(** [(uint8_t* )&val] is the object representation of [val]. *)
Definition AddIntTag (a : bam1_t) (tag : string) (val : Z) : bam1_t :=
  bam_aux_append a tag (byte_of_ascii "i") 4 (Int.le32_bytes val).

(** [keep] is a [size_t]; its summands are the sizes of the four regions
    before the tags, which are not negative.  [l_data] is an [int]. *)
Definition RemoveAllTags (a : bam1_t) : bam1_t :=
  let keep :=
    Z.shiftl (n_cigar (core a)) 2 + l_qname (core a)
    + Z.shiftr (l_qseq (core a) + 1) 1 + l_qseq (core a) in
  {| core := core a;
     data := realloc (data a) (Z.to_nat keep);
     l_data := Int.int32 keep;
     m_data := Int.int32 keep |}.

(** ** CIGAR text *)

(** The kind characters the parser splits on (top of the header). *)
Definition cigar_delimiters : string := "MIDNSHPX".

Fixpoint index_of (ch : ascii) (s : string) : option nat :=
  match s with
  | EmptyString => None
  | String x s' =>
      if ascii_dec x ch then Some O
      else match index_of ch s' with
           | Some i => Some (S i)
           | None => None
           end
  end.

Module CigarText.

(** Modelled from the spec: the constructor [CigarField(char t, uint32_t l)],
    declared in the header and defined elsewhere.  It packs the code of
    a recognized kind character in the low 4 bits under the length. *)
Definition CigarField_of (t : ascii) (l : Z) : option CigarField :=
  match index_of t cigar_delimiters, index_of t BAM_CIGAR_STR with
  | Some _, Some k =>
      Some (mkCigarField (bam_cigar_gen l (Z.of_nat k)))
  | _, _ => None
  end.

(** Modelled from the spec: a character of a digit run. *)
Definition is_digit (ch : ascii) : bool :=
  (48 <=? nat_of_ascii ch)%nat && (nat_of_ascii ch <=? 57)%nat.

(** Modelled from the spec: the value of a digit. *)
Definition digit_value (ch : ascii) : Z := Z.of_nat (nat_of_ascii ch - 48).

(** Modelled from the spec: the walk of [cigarFromString] over digit runs,
    each followed by one recognized kind character; [None] is the format
    error raised on an unrecognized character and on a digit run with no
    kind character after it.  [run] is the value of the digit run read so
    far. *)
Fixpoint parse (s : string) (run : option Z) (cig : Cigar) : option Cigar :=
  match s with
  | EmptyString =>
      match run with
      | None => Some cig
      | Some _ => None
      end
  | String ch rest =>
      if is_digit ch then
        parse rest
              (Some (10 * match run with Some n => n | None => 0 end
                     + digit_value ch))
              cig
      else
        match run with
        | None => None
        | Some n =>
            match CigarField_of ch n with
            | Some c => parse rest None (add cig c)
            | None => None
            end
        end
  end.

(** Modelled from the spec: [cigarFromString], declared in the header and
    defined elsewhere. *)
Definition cigarFromString (cig : string) : option Cigar := parse cig None [].

(** Modelled from the spec: the stream operator of [CigarField], declared
    in the header and defined elsewhere; an operation prints as its length
    followed by its kind character. *)
Definition print_CigarField (c : CigarField) : string :=
  (decimal (Field.Length c) ++ String (Field.Type_ c) "")%string.

(** Modelled from the spec: the stream operator of [Cigar], declared in
    the header and defined elsewhere; a cigar prints as its operations in
    order. *)
Fixpoint print_Cigar (cig : Cigar) : string :=
  match cig with
  | [] => ""%string
  | c :: rest => (print_CigarField c ++ print_Cigar rest)%string
  end.

End CigarText.

Import CigarText.

(** ** Views used to state the properties *)

(** The packed operations of the record, first to last. *)
Definition cigar_words (a : bam1_t) : list Z :=
  map (word_at (bam_get_cigar a)) (seq 0 (ncigar a)).

(** The operation is a soft clip or a hard clip. *)
Definition is_clip (w : Z) : bool :=
  (bam_cigar_op w =? BAM_CSOFT_CLIP) || (bam_cigar_op w =? BAM_CHARD_CLIP).

(** The text of one packed operation, as [CigarString] writes it. *)
Definition word_text (w : Z) : string :=
  (decimal (bam_cigar_oplen w) ++ String (cigar_alphabet (bam_cigar_op w)) "")%string.

(** The longest prefix whose elements all satisfy [f]. *)
Fixpoint take_while {A : Type} (f : A -> bool) (l : list A) : list A :=
  match l with
  | [] => []
  | x :: l' => if f x then x :: take_while f l' else []
  end.

(** The text of a list of packed operations. *)
Definition cigar_text (ws : list Z) : string :=
  fold_right (fun w acc => (word_text w ++ acc)%string) ""%string ws.

(** A loop over the operations [ws] in order, with early exit. *)
Fixpoint scan {S : Type} (f : Z -> S -> step S) (ws : list Z) (s : S) : S :=
  match ws with
  | [] => s
  | w :: ws' =>
      match f w s with
      | Continue s' => scan f ws' s'
      | Break s' => s'
      end
  end.

Definition is_soft (w : Z) : bool := bam_cigar_op w =? BAM_CSOFT_CLIP.

Definition is_hard (w : Z) : bool := bam_cigar_op w =? BAM_CHARD_CLIP.

(** The sum of the lengths of the operations of [ws] selected by [f]. *)
Definition length_sum (f : Z -> bool) (ws : list Z) : Z :=
  fold_right (fun w acc => if f w then bam_cigar_oplen w + acc else acc) 0 ws.

(** The size of the four regions that precede the tags. *)
Definition regions_size (a : bam1_t) : Z :=
  4 * n_cigar (core a) + l_qname (core a)
  + (l_qseq (core a) / 2 + l_qseq (core a) mod 2) + l_qseq (core a).

(** A record whose core sizes describe its buffer: the sizes are not
    negative, the used part of the buffer is all of [data], it holds the
    four regions, and its length fits the [int] field [l_data]. *)
Definition well_formed (a : bam1_t) : Prop :=
  0 <= n_cigar (core a) /\ 0 <= l_qname (core a) /\ 0 <= l_qseq (core a)
  /\ l_data a = Z.of_nat (List.length (data a))
  /\ regions_size a <= l_data a < 2 ^ 31.

(** One entry of the tag list: 2-character key, type code, payload. *)
Record aux_tag := mk_tag {
  tag_k0 : byte;
  tag_k1 : byte;
  tag_type : byte;
  tag_payload : list byte
}.

(** The bytes of an entry in the record buffer. *)
Definition encode_tag (e : aux_tag) : list byte :=
  tag_k0 e :: tag_k1 e :: tag_type e :: tag_payload e.

Definition encode_tags (es : list aux_tag) : list byte := flat_map encode_tag es.

Definition nonzero (x : byte) : bool := negb (Int.of_byte x =? 0).

(** The payload has the size its type code announces: a fixed number of
    bytes; a zero-terminated string for [Z] and [H]; for [B] an element
    type, a 32-bit count and the elements. *)
Definition payload_ok (e : aux_tag) : bool :=
  let size := aux_type2size (tag_type e) in
  let p := tag_payload e in
  if (size =? 90) || (size =? 72) then
    match rev p with
    | z :: body => negb (nonzero z) && forallb nonzero body
    | [] => false
    end
  else if size =? 66 then
    match p with
    | sub :: rest =>
        (4 <=? List.length rest)%nat
        && (Z.of_nat (List.length rest - 4)
            =? Int.uint32 (aux_type2size sub * Int.le32 rest))
    | [] => false
    end
  else if size =? 0 then false
  else Z.of_nat (List.length p) =? size.

(** The key of the tag is the two characters of [tag]. *)
Definition has_key (tag : string) (e : aux_tag) : bool :=
  Byte.eqb (tag_k0 e) (key_byte tag 0) && Byte.eqb (tag_k1 e) (key_byte tag 1).

(** The tag [AddIntTag] appends. *)
Definition int_tag (tag : string) (val : Z) : aux_tag :=
  {| tag_k0 := key_byte tag 0; tag_k1 := key_byte tag 1;
     tag_type := byte_of_ascii "i"; tag_payload := Int.le32_bytes val |}.

(** ** Sample records *)

Definition sample_core (fl p mp nc lq : Z) : bam1_core_t :=
  {| tid := 0; pos := p; qual := 60; l_qname := 3; flag := fl; n_cigar := nc;
     l_qseq := lq; mtid := 0; mpos := mp; isize := 0 |}.

(** Lays out a record buffer: name, cigar words, packed bases, qualities,
    tags. *)
Definition sample_bam (c : bam1_core_t) (ws : list Z) (aux : list byte) : bam1_t :=
  let d :=
    [byte_of_ascii "r"; byte_of_ascii "1"; x00]
      ++ flat_map Int.le32_bytes ws
      ++ repeat x11 (Z.to_nat ((l_qseq c + 1) / 2))
      ++ repeat x1e (Z.to_nat (l_qseq c))
      ++ aux in
  {| core := c; l_data := Z.of_nat (List.length d);
     m_data := Z.of_nat (List.length d); data := d |}.

(** [10S80M10S] on a read of 100 bases, forward strand, mate reverse and
    downstream. *)
Definition clipped_read : bam1_t :=
  sample_bam (sample_core 0x63 100 300 3 100)
    [bam_cigar_gen 10 BAM_CSOFT_CLIP; bam_cigar_gen 80 BAM_CMATCH;
     bam_cigar_gen 10 BAM_CSOFT_CLIP] [].

(** [35M10I5M] on a read of 50 bases. *)
Definition indel_read : bam1_t :=
  sample_bam (sample_core 0x63 100 300 3 50)
    [bam_cigar_gen 35 BAM_CMATCH; bam_cigar_gen 10 BAM_CINS;
     bam_cigar_gen 5 BAM_CMATCH] [].

(** Both reads forward, this one downstream of its mate. *)
Definition forward_pair : bam1_t :=
  sample_bam (sample_core 0x41 200 100 1 4) [bam_cigar_gen 4 BAM_CMATCH] [].

(** [NM:i:2] and [RG:Z:g1] already attached. *)
Definition tagged_read : bam1_t :=
  sample_bam (sample_core 0x63 100 300 1 4) [bam_cigar_gen 4 BAM_CMATCH]
    (map byte_of_ascii (list_ascii_of_string "NMi")
       ++ Int.le32_bytes 2
       ++ map byte_of_ascii (list_ascii_of_string "RGZg1") ++ [x00]).

(** ** Further accessors of the record *)

(** [abs(pos - mpos) + Length()] on [int]; 0 across chromosomes and when
    the pair is not mapped.  The method dereferences [b] unguarded. *)
Definition FullInsertSize (a : bam1_t) : Z :=
  if negb (tid (core a) =? mtid (core a))
     || negb (PairMappedFlag (mkBamRecord (Some a)))
  then 0
  else Int.add (Int.int32 (Z.abs (Int.sub (pos (core a)) (mpos (core a)))))
               (Length a).

(** ** Sort orders *)

Module BamRecordSort.

Definition ByReadPosition (lx rx : BamRecord) : bool :=
  (ChrID lx <? ChrID rx)
  || ((ChrID lx =? ChrID rx) && (Position lx <? Position rx)).

Definition ByMatePosition (lx rx : BamRecord) : bool :=
  (MateChrID lx <? MateChrID rx)
  || ((MateChrID lx =? MateChrID rx) && (MatePosition lx <? MatePosition rx)).

End BamRecordSort.

(** ** Qualities and name *)

(** Modelled from the spec: htslib's [bam_get_qual], the qualities follow
    the name, the cigar array and the packed bases in the record buffer. *)
Definition bam_get_qual (a : bam1_t) : list byte :=
  skipn
    (Z.to_nat (Z.shiftl (n_cigar (core a)) 2 + l_qname (core a)
               + Z.shiftr (l_qseq (core a) + 1) 1))
    (data a).

(** [std::string out(n, c)] *)
Fixpoint string_fill (n : nat) (c : ascii) : string :=
  match n with
  | O => EmptyString
  | S k => String c (string_fill k c)
  end.

(** [out[i] = c]; an index past the end leaves the string as it is. *)
Fixpoint string_set (s : string) (i : nat) (c : ascii) : string :=
  match s, i with
  | EmptyString, _ => EmptyString
  | String _ r, O => String c r
  | String x r, S k => String x (string_set r k c)
  end.

(** [(char)(q + 33)] for a quality byte [q] *)
Definition phred_char (q : byte) : ascii :=
  ascii_of_byte (Int.to_byte (Int.of_byte q + 33)).

Definition Qualities (a : bam1_t) : string :=
  let p := bam_get_qual a in
  let n := Z.to_nat (l_qseq (core a)) in
  for_up n 0
    (fun i out => Continue (string_set out i (phred_char (nth i p x00))))
    (string_fill n " ").

(** Modelled from the spec: htslib's [bam_get_qname], the name starts the
    record buffer. *)
Definition bam_get_qname (a : bam1_t) : list byte := data a.

(** [std::string(const char* )]: the characters up to the terminator. *)
Fixpoint c_string (s : list byte) : string :=
  match s with
  | [] => EmptyString
  | x :: s' =>
      if Int.of_byte x =? 0 then EmptyString
      else String (ascii_of_byte x) (c_string s')
  end.

Definition Qname (a : bam1_t) : string := c_string (bam_get_qname a).

Section ReadGroup.

(** [GetZTag] is declared in the header and defined elsewhere;
    [ParseReadGroup] only tests its result, so it is kept abstract. *)
Variable GetZTag : bam1_t -> string -> string.

Definition ParseReadGroup (a : bam1_t) : string :=
  let RG := GetZTag a "RG" in
  if negb (String.length RG =? 0)%nat then RG
  else
    let qn := Qname a in
    match index_of ":" qn with
    | Some posr => substring 0 posr qn
    | None => "NA"%string
    end.

End ReadGroup.

Section RemoveTag.

(** htslib's [bam_aux_del] is an external function; [RemoveTag] calls it
    only on a tag that was found, so it is kept abstract. *)
Variable bam_aux_del : bam1_t -> list byte -> bam1_t.

Definition RemoveTag (a : bam1_t) (tag : string) : outcome bam1_t :=
  match bam_aux_get a tag with
  | Aborts => Aborts
  | Returns None => Returns a
  | Returns (Some p) => Returns (bam_aux_del a p)
  end.

End RemoveTag.

(** ** Further views *)

Definition is_kind (k : Z) (w : Z) : bool := bam_cigar_op w =? k.

(** The largest length among the operations of [ws] selected by [f], 0
    when there is none. *)
Definition length_max (f : Z -> bool) (ws : list Z) : Z :=
  fold_right (fun w acc => if f w then Z.max (bam_cigar_oplen w) acc else acc)
             0 ws.

(** The quality bytes of the record, first base to last. *)
Definition quals (a : bam1_t) : list byte :=
  map (fun i => nth i (bam_get_qual a) x00)
      (seq 0 (Z.to_nat (l_qseq (core a)))).

(** The tags of the record are well-sized entries [es]. *)
Definition tags_are (a : bam1_t) (es : list aux_tag) : Prop :=
  bam_get_aux a = encode_tags es /\ forallb payload_ok es = true.

(** Two buffers agree on their first [k] bytes. *)
Definition agree (k : nat) (d d' : list byte) : Prop :=
  forall j, (j < k)%nat -> nth j d x00 = nth j d' x00.

(** Everything the accessors of the alignment read is kept. *)
Definition same_alignment (a a' : bam1_t) : Prop :=
  core a' = core a
  /\ GetCigar a' = GetCigar a
  /\ CigarString a' = CigarString a
  /\ AlignmentPosition a' = AlignmentPosition a
  /\ AlignmentEndPosition a' = AlignmentEndPosition a
  /\ NumClip a' = NumClip a
  /\ NumMatchBases a' = NumMatchBases a
  /\ Qualities a' = Qualities a.

(** The integer [GetIntTag] reads from a tag. *)
Definition tag_int (e : aux_tag) : Z := bam_aux2i (tag_type e :: tag_payload e).

(** The first tag of [es] whose key is [tag]. *)
Definition first_tag (tag : string) (es : list aux_tag) : option aux_tag :=
  find (has_key tag) es.

(** ** Further sample records *)

(** The mate of [clipped_read]: reverse strand, upstream mate. *)
Definition clipped_mate : bam1_t :=
  sample_bam (sample_core 0x93 300 100 1 100) [bam_cigar_gen 100 BAM_CMATCH] [].

(** A mapped pair on two chromosomes. *)
Definition split_pair : bam1_t :=
  sample_bam
    {| tid := 0; pos := 100; qual := 60; l_qname := 3; flag := 0x61;
       n_cigar := 1; l_qseq := 4; mtid := 5; mpos := 700; isize := 0 |}
    [bam_cigar_gen 4 BAM_CMATCH] [].

(** [5H10S20M3I7M2D30M10S] on a read of 80 stored bases. *)
Definition gapped_read : bam1_t :=
  sample_bam (sample_core 0x63 100 300 8 80)
    [bam_cigar_gen 5 BAM_CHARD_CLIP; bam_cigar_gen 10 BAM_CSOFT_CLIP;
     bam_cigar_gen 20 BAM_CMATCH; bam_cigar_gen 3 BAM_CINS;
     bam_cigar_gen 7 BAM_CMATCH; bam_cigar_gen 2 BAM_CDEL;
     bam_cigar_gen 30 BAM_CMATCH; bam_cigar_gen 10 BAM_CSOFT_CLIP] [].

(** A record whose name is [lane7:1104:22]. *)
Definition named_read : bam1_t :=
  let d := map byte_of_ascii (list_ascii_of_string "lane7:1104:22") ++ [x00] in
  {| core := {| tid := 0; pos := 100; qual := 60; l_qname := 14; flag := 0;
                n_cigar := 0; l_qseq := 0; mtid := 0; mpos := 0; isize := 0 |};
     l_data := 14; m_data := 14; data := d |}.

(** * Properties *)

(** ** Fixed-width arithmetic *)

Lemma int32_range z : Int.in_int32 (Int.int32 z).
Proof.
  unfold Int.in_int32, Int.int32.
  pose proof (Z.mod_pos_bound (z + 2 ^ 31) (2 ^ 32)). lia.
Qed.

Lemma int32_id z : Int.in_int32 z -> Int.int32 z = z.
Proof.
  unfold Int.in_int32, Int.int32. intros H.
  rewrite Z.mod_small by lia. lia.
Qed.

Lemma int32_congr x y k : x = y + k * 2 ^ 32 -> Int.int32 x = Int.int32 y.
Proof.
  unfold Int.int32. intros ->. f_equal.
  replace (y + k * 2 ^ 32 + 2 ^ 31) with (y + 2 ^ 31 + k * 2 ^ 32) by lia.
  apply Z.mod_add. lia.
Qed.

Lemma int32_uint32 z : Int.int32 (Int.uint32 z) = Int.int32 z.
Proof.
  apply (int32_congr _ _ (- (z / 2 ^ 32))). unfold Int.uint32.
  pose proof (Z.mod_eq z (2 ^ 32)). lia.
Qed.

Lemma int32_int32_add_l x y : Int.int32 (Int.int32 x + y) = Int.int32 (x + y).
Proof.
  apply (int32_congr _ _ (- ((x + 2 ^ 31) / 2 ^ 32))). unfold Int.int32.
  pose proof (Z.mod_eq (x + 2 ^ 31) (2 ^ 32)). lia.
Qed.

Lemma int32_int32_add_r x y : Int.int32 (x + Int.int32 y) = Int.int32 (x + y).
Proof. rewrite Z.add_comm, int32_int32_add_l. f_equal. lia. Qed.

Lemma int32_int32_sub_r x y : Int.int32 (x - Int.int32 y) = Int.int32 (x - y).
Proof.
  apply (int32_congr _ _ ((y + 2 ^ 31) / 2 ^ 32)). unfold Int.int32.
  pose proof (Z.mod_eq (y + 2 ^ 31) (2 ^ 32)). lia.
Qed.

(** [p += x] is the addition modulo 2^32, read back as a signed number. *)
Lemma add_assign_spec p x : Int.add_assign p x = Int.int32 (p + x).
Proof.
  unfold Int.add_assign. rewrite int32_uint32.
  apply (int32_congr _ _ (- (p / 2 ^ 32))). unfold Int.uint32.
  pose proof (Z.mod_eq p (2 ^ 32)). lia.
Qed.

Lemma of_byte_range x : 0 <= Int.of_byte x < 256.
Proof.
  unfold Int.of_byte. pose proof (Byte.to_N_bounded x). lia.
Qed.

Lemma of_to_byte z : Int.of_byte (Int.to_byte z) = z mod 256.
Proof.
  unfold Int.of_byte, Int.to_byte.
  pose proof (Z.mod_pos_bound z 256 eq_refl) as Hm.
  destruct (Byte.of_N (Z.to_N (z mod 256))) eqn:E.
  - apply Byte.to_of_N in E. rewrite E. lia.
  - apply Byte.of_N_None_iff in E. lia.
Qed.

Lemma le32_range s : Int.in_uint32 (Int.le32 s).
Proof.
  unfold Int.in_uint32, Int.le32.
  pose proof (of_byte_range (nth 0 s x00)).
  pose proof (of_byte_range (nth 1 s x00)).
  pose proof (of_byte_range (nth 2 s x00)).
  pose proof (of_byte_range (nth 3 s x00)).
  lia.
Qed.

(** Reading back the object representation of a 32-bit integer. *)
Lemma le32_le32_bytes z rest :
  Int.le32 (Int.le32_bytes z ++ rest) = Int.uint32 z.
Proof.
  unfold Int.le32, Int.le32_bytes, Int.uint32. cbn [nth app].
  rewrite !of_to_byte, !Z.shiftr_div_pow2 by lia.
  change 256 with (2 ^ 8).
  pose proof (Z.mod_eq z (2 ^ 8)).
  pose proof (Z.mod_eq (z / 2 ^ 8) (2 ^ 8)).
  pose proof (Z.mod_eq (z / 2 ^ 16) (2 ^ 8)).
  pose proof (Z.mod_eq (z / 2 ^ 24) (2 ^ 8)).
  pose proof (Z.mod_eq z (2 ^ 32)).
  pose proof (Z.div_div z (2 ^ 8) (2 ^ 8)).
  pose proof (Z.div_div z (2 ^ 16) (2 ^ 8)).
  pose proof (Z.div_div z (2 ^ 24) (2 ^ 8)).
  change (2 ^ 8 * 2 ^ 8) with (2 ^ 16) in *.
  change (2 ^ 16 * 2 ^ 8) with (2 ^ 24) in *.
  change (2 ^ 24 * 2 ^ 8) with (2 ^ 32) in *.
  lia.
Qed.

(** ** Empty records *)

(** C10. On an empty record, one whose pointer [b] is null, every guarded
    flag accessor returns false and every guarded field accessor returns
    -1; none of them dereferences [b]. *)
Theorem empty_record_defaults (bam_endpos : bam1_t -> Z) (r : BamRecord) :
  isEmpty r = true ->
  (ReverseFlag r = false /\ MateReverseFlag r = false
   /\ DuplicateFlag r = false /\ SecondaryFlag r = false
   /\ PairedFlag r = false /\ QCFailFlag r = false
   /\ MappedFlag r = false /\ MateMappedFlag r = false
   /\ PairMappedFlag r = false /\ ProperPair r = false
   /\ Interchromosomal r = false)
  /\ (Position r = -1 /\ MatePosition r = -1
      /\ PositionEnd bam_endpos r = -1
      /\ ChrID r = -1 /\ MateChrID r = -1
      /\ MapQuality r = -1 /\ CigarSize r = -1).
Proof.
  destruct r as [[a|]]; cbn [isEmpty b]; intros He; [discriminate|].
  repeat split.
Qed.

Lemma empty_record_defaults_witness :
  ReverseFlag empty_record = false /\ CigarSize empty_record = -1.
Proof.
  destruct (empty_record_defaults (fun _ => 0) empty_record eq_refl)
    as [Hflags Hfields].
  split; [apply Hflags | apply Hfields].
Defined.

(** ** Pair orientation *)

Lemma PairMapped_not_empty r :
  PairMappedFlag r = true -> exists a, b r = Some a.
Proof.
  destruct r as [[a|]]; cbn; [eauto | discriminate].
Qed.

(** The assertion that ends [PairOrientation] is never reached. *)
Lemma PairOrientation_returns r : PairOrientation r <> None.
Proof.
  unfold PairOrientation.
  destruct (PairMappedFlag r), (ReverseFlag r), (MateReverseFlag r); cbn;
    try discriminate;
    destruct (Z.leb_spec (Position r) (MatePosition r)),
             (Z.geb_spec (Position r) (MatePosition r)),
             (Z.ltb_spec (Position r) (MatePosition r)),
             (Z.gtb_spec (Position r) (MatePosition r));
    cbn; try discriminate; lia.
Qed.

(** C1. When the pair is mapped, [PairOrientation] returns one of the four
    defined orientations, never the undefined one, the one the table of
    rows over (own reverse, mate reverse, own position, mate position)
    gives; it does not reach the assertion at its end. *)
Theorem PairOrientation_mapped_pair (r : BamRecord) :
  PairMappedFlag r = true ->
  exists o,
    PairOrientation r = Some o
    /\ (o = FRORIENTATION \/ o = FFORIENTATION
        \/ o = RFORIENTATION \/ o = RRORIENTATION)
    /\ o <> UDORIENTATION
    /\ (ReverseFlag r = false -> MateReverseFlag r = true ->
        Position r <= MatePosition r -> o = FRORIENTATION)
    /\ (ReverseFlag r = true -> MateReverseFlag r = false ->
        Position r >= MatePosition r -> o = FRORIENTATION)
    /\ (ReverseFlag r = false -> MateReverseFlag r = false ->
        o = FFORIENTATION)
    /\ (ReverseFlag r = true -> MateReverseFlag r = true ->
        o = RRORIENTATION)
    /\ (ReverseFlag r = true -> MateReverseFlag r = false ->
        Position r < MatePosition r -> o = RFORIENTATION)
    /\ (ReverseFlag r = false -> MateReverseFlag r = true ->
        Position r > MatePosition r -> o = RFORIENTATION).
Proof.
  intros Hpm. unfold PairOrientation. rewrite Hpm. cbn [negb].
  destruct (ReverseFlag r), (MateReverseFlag r); cbn [negb andb orb];
    destruct (Z.leb_spec (Position r) (MatePosition r)),
             (Z.geb_spec (Position r) (MatePosition r)),
             (Z.ltb_spec (Position r) (MatePosition r)),
             (Z.gtb_spec (Position r) (MatePosition r));
    cbn [negb andb orb]; try lia;
    eexists; (split; [reflexivity|]);
    unfold FRORIENTATION, FFORIENTATION, RFORIENTATION, RRORIENTATION,
      UDORIENTATION;
    repeat split; intros; try discriminate; try lia.
Qed.

Lemma PairOrientation_mapped_pair_witness :
  exists o, PairOrientation (mkBamRecord (Some clipped_read)) = Some o
            /\ o = FRORIENTATION.
Proof.
  destruct (PairOrientation_mapped_pair (mkBamRecord (Some clipped_read)))
    as (o & Ho & _ & _ & Hrow & _).
  - reflexivity.
  - exists o. split; [exact Ho|].
    apply Hrow; [reflexivity | reflexivity | cbn; lia].
Defined.

(** What [ProperOrientation] computes on a record that is not empty. *)
Lemma ProperOrientation_spec r a :
  b r = Some a ->
  ProperOrientation r =
    (tid (core a) =? mtid (core a))
    && (if pos (core a) <? mpos (core a)
        then negb (ReverseFlag r) && MateReverseFlag r
        else negb (negb (ReverseFlag r) && MateReverseFlag r)).
Proof.
  intros Hb. unfold ProperOrientation, ReverseFlag, MateReverseFlag, guarded.
  rewrite Hb. unfold flag_set.
  destruct (tid (core a) =? mtid (core a)); cbn [negb andb]; [|reflexivity].
  destruct (pos (core a) <? mpos (core a));
    destruct (Z.land (flag (core a)) BAM_FREVERSE =? 0);
    destruct (Z.land (flag (core a)) BAM_FMREVERSE =? 0); reflexivity.
Qed.

(** C2. [ProperOrientation] on a pair on one chromosome whose two reads
    are both on the forward strand, the record being the downstream read:
    it answers true, although the higher-position read is not on the
    reverse strand, and [PairOrientation] classifies the same record as
    forward-forward. *)
Theorem ProperOrientation_forward_pair :
  let r := mkBamRecord (Some forward_pair) in
  ChrID r = MateChrID r
  /\ MatePosition r < Position r
  /\ ReverseFlag r = false /\ MateReverseFlag r = false
  /\ PairOrientation r = Some FFORIENTATION
  /\ ProperOrientation r = true.
Proof.
  cbn zeta. repeat split.
Qed.

(** ** Packed CIGAR operations *)

Lemma bam_cigar_op_mod w : bam_cigar_op w = w mod 16.
Proof.
  unfold bam_cigar_op, BAM_CIGAR_MASK.
  change 15 with (Z.ones 4). rewrite Z.land_ones by lia. reflexivity.
Qed.

Lemma bam_cigar_oplen_div w : bam_cigar_oplen w = w / 16.
Proof.
  unfold bam_cigar_oplen, BAM_CIGAR_SHIFT.
  rewrite Z.shiftr_div_pow2 by lia. reflexivity.
Qed.

Lemma bam_cigar_op_cases w :
  In (bam_cigar_op w) [0; 1; 2; 3; 4; 5; 6; 7; 8; 9; 10; 11; 12; 13; 14; 15].
Proof.
  rewrite bam_cigar_op_mod.
  pose proof (Z.mod_pos_bound w 16 eq_refl) as H.
  cbn [In].
  assert (w mod 16 = 0 \/ w mod 16 = 1 \/ w mod 16 = 2 \/ w mod 16 = 3
          \/ w mod 16 = 4 \/ w mod 16 = 5 \/ w mod 16 = 6 \/ w mod 16 = 7
          \/ w mod 16 = 8 \/ w mod 16 = 9 \/ w mod 16 = 10 \/ w mod 16 = 11
          \/ w mod 16 = 12 \/ w mod 16 = 13 \/ w mod 16 = 14 \/ w mod 16 = 15)
    as Hc by lia.
  intuition auto.
Qed.

(** Case analysis on the kind code of [w]: one goal per code. *)
Ltac by_kind w :=
  let H := fresh "Hop" in
  pose proof (bam_cigar_op_cases w) as H; cbn [In] in H;
  repeat (destruct H as [H|H]; [symmetry in H|]); [..|contradiction].

Lemma is_chr_S w : is_chr w "S" = is_soft w.
Proof.
  unfold is_chr, is_soft, bam_cigar_opchr.
  by_kind w; rewrite Hop; reflexivity.
Qed.

Lemma is_chr_H w : is_chr w "H" = is_hard w.
Proof.
  unfold is_chr, is_hard, bam_cigar_opchr.
  by_kind w; rewrite Hop; reflexivity.
Qed.

Lemma is_clip_chr w : is_chr w "S" || is_chr w "H" = is_clip w.
Proof. rewrite is_chr_S, is_chr_H. reflexivity. Qed.

Lemma is_clip_split w : is_clip w = is_soft w || is_hard w.
Proof. reflexivity. Qed.

Lemma soft_not_hard w : is_soft w = true -> is_hard w = false.
Proof.
  unfold is_soft, is_hard, BAM_CSOFT_CLIP, BAM_CHARD_CLIP. lia.
Qed.

(** C8. A field built from a 32-bit word has the low 4 bits of the word
    as its kind code and the high 28 bits as its length; it consumes the
    reference exactly for the kinds match, deletion, reference skip,
    sequence match and sequence mismatch, and the query exactly for the
    kinds match, insertion, soft clip, sequence match and sequence
    mismatch. *)
Theorem CigarField_unpack (w : Z) :
  Int.in_uint32 w ->
  let c := mkCigarField w in
  Field.RawType c = w mod 2 ^ 4
  /\ Field.Length c = w / 2 ^ 4
  /\ 0 <= Field.Length c < 2 ^ 28
  /\ w = Field.Length c * 2 ^ 4 + Field.RawType c
  /\ (Field.ConsumesReference c = true <->
      In (Field.RawType c)
         [BAM_CMATCH; BAM_CDEL; BAM_CREF_SKIP; BAM_CEQUAL; BAM_CDIFF])
  /\ (Field.ConsumesQuery c = true <->
      In (Field.RawType c)
         [BAM_CMATCH; BAM_CINS; BAM_CSOFT_CLIP; BAM_CEQUAL; BAM_CDIFF]).
Proof.
  intros Hw. unfold Int.in_uint32 in Hw. cbv zeta.
  unfold Field.RawType, Field.Length, Field.ConsumesReference,
    Field.ConsumesQuery. cbn [raw].
  rewrite bam_cigar_oplen_div.
  change (2 ^ 4) with 16.
  pose proof (Z.div_mod w 16) as Hdm.
  assert (0 <= w / 16 < 2 ^ 28) as Hlen.
  { split; [apply Z.div_pos; lia|].
    apply Z.div_lt_upper_bound; lia. }
  split; [apply bam_cigar_op_mod|].
  split; [reflexivity|].
  split; [exact Hlen|].
  split; [rewrite bam_cigar_op_mod; lia|].
  unfold BAM_CMATCH, BAM_CINS, BAM_CDEL, BAM_CREF_SKIP, BAM_CSOFT_CLIP,
    BAM_CEQUAL, BAM_CDIFF.
  split; by_kind w; rewrite Hop; cbn; intuition (discriminate || lia).
Qed.

Lemma CigarField_unpack_witness :
  Field.RawType (mkCigarField 164) = 4 /\ Field.Length (mkCigarField 164) = 10.
Proof.
  destruct (CigarField_unpack 164) as (Hk & Hl & _).
  - unfold Int.in_uint32. lia.
  - rewrite Hk, Hl. split; reflexivity.
Defined.

(** ** The loops over the cigar array, as scans of [cigar_words] *)

Lemma for_up_scan {S : Type} (f : Z -> S -> step S) c n :
  forall i s,
    for_up n i (fun i s => f (word_at c i) s) s
    = scan f (map (word_at c) (seq i n)) s.
Proof.
  induction n as [|n IH]; intros i s; cbn [for_up seq map scan]; [reflexivity|].
  destruct (f (word_at c i) s); [apply IH | reflexivity].
Qed.

Lemma for_down_scan {S : Type} (f : Z -> S -> step S) c n :
  forall s,
    for_down n (fun i s => f (word_at c i) s) s
    = scan f (rev (map (word_at c) (seq 0 n))) s.
Proof.
  induction n as [|n IH]; intros s; [reflexivity|].
  rewrite seq_S, map_app, rev_app_distr. cbn [for_down map rev app scan plus].
  destruct (f (word_at c n) s); [apply IH | reflexivity].
Qed.

Lemma cigar_words_range a : Forall Int.in_uint32 (cigar_words a).
Proof.
  unfold cigar_words. apply Forall_forall. intros w Hw.
  apply in_map_iff in Hw. destruct Hw as (i & <- & _).
  apply le32_range.
Qed.

Lemma oplen_nonneg w : Int.in_uint32 w -> 0 <= bam_cigar_oplen w.
Proof.
  unfold Int.in_uint32. intros H. rewrite bam_cigar_oplen_div.
  apply Z.div_pos; lia.
Qed.

Lemma length_sum_cons f w ws :
  length_sum f (w :: ws)
  = if f w then bam_cigar_oplen w + length_sum f ws else length_sum f ws.
Proof. reflexivity. Qed.

Lemma length_sum_ext f g ws :
  (forall w, f w = g w) -> length_sum f ws = length_sum g ws.
Proof.
  intros E. induction ws as [|w ws IH]; [reflexivity|].
  rewrite !length_sum_cons, E, IH. reflexivity.
Qed.

Lemma length_sum_app f ws1 ws2 :
  length_sum f (ws1 ++ ws2) = length_sum f ws1 + length_sum f ws2.
Proof.
  induction ws1 as [|w ws1 IH]; [reflexivity|].
  cbn [app]. rewrite !length_sum_cons, IH. destruct (f w); lia.
Qed.

Lemma length_sum_rev f ws : length_sum f (rev ws) = length_sum f ws.
Proof.
  induction ws as [|w ws IH]; [reflexivity|].
  cbn [rev]. rewrite length_sum_app, IH, !length_sum_cons.
  change (length_sum f []) with 0. destruct (f w); lia.
Qed.

Lemma length_sum_nonneg f ws :
  Forall Int.in_uint32 ws -> 0 <= length_sum f ws.
Proof.
  induction 1 as [|w ws Hw _ IH]; [cbn; lia|].
  rewrite length_sum_cons. pose proof (oplen_nonneg w Hw).
  destruct (f w); lia.
Qed.

(** The clips of the two kinds partition the clips. *)
Lemma length_sum_clip ws :
  length_sum is_clip ws = length_sum is_soft ws + length_sum is_hard ws.
Proof.
  induction ws as [|w ws IH]; [reflexivity|].
  rewrite !length_sum_cons, is_clip_split.
  destruct (is_soft w) eqn:Es; [rewrite (soft_not_hard w Es)|];
    destruct (is_hard w) eqn:Eh; cbn [orb]; try discriminate; lia.
Qed.

Lemma clip_run_le ws :
  Forall Int.in_uint32 ws ->
  0 <= length_sum is_clip (take_while is_clip ws) <= length_sum is_clip ws.
Proof.
  induction 1 as [|w ws Hw Hws IH]; [cbn; lia|].
  cbn [take_while]. rewrite length_sum_cons.
  pose proof (oplen_nonneg w Hw).
  pose proof (length_sum_nonneg is_clip ws Hws).
  destruct (is_clip w) eqn:E; [rewrite length_sum_cons, E | cbn]; lia.
Qed.

(** The clip loop with early exit: the lengths of the leading run of
    clips, added modulo 2^32. *)
Lemma scan_clip_run ws :
  forall p,
    Int.in_int32 p ->
    scan (fun w p =>
            if is_chr w "S" || is_chr w "H"
            then Continue (Int.add_assign p (bam_cigar_oplen w))
            else Break p) ws p
    = Int.int32 (p + length_sum is_clip (take_while is_clip ws)).
Proof.
  induction ws as [|w ws IH]; intros p Hp; cbn [scan take_while].
  - cbn. rewrite Z.add_0_r. symmetry. apply int32_id, Hp.
  - rewrite is_clip_chr. destruct (is_clip w) eqn:E.
    + rewrite IH by (rewrite add_assign_spec; apply int32_range).
      rewrite add_assign_spec, int32_int32_add_l, length_sum_cons, E.
      f_equal. lia.
    + cbn. rewrite Z.add_0_r. symmetry. apply int32_id, Hp.
Qed.

(** The counting loops: the lengths of the selected operations, added
    modulo 2^32. *)
Lemma scan_count (t : Z -> bool) ws :
  forall p,
    Int.in_int32 p ->
    scan (fun w p =>
            if t w
            then Continue (Int.add_assign p (bam_cigar_oplen w))
            else Continue p) ws p
    = Int.int32 (p + length_sum t ws).
Proof.
  induction ws as [|w ws IH]; intros p Hp; cbn [scan].
  - cbn. rewrite Z.add_0_r. symmetry. apply int32_id, Hp.
  - rewrite length_sum_cons.
    destruct (t w).
    + rewrite IH by (rewrite add_assign_spec; apply int32_range).
      rewrite add_assign_spec, int32_int32_add_l. f_equal. lia.
    + apply IH, Hp.
Qed.

Lemma zero_in_int32 : Int.in_int32 0.
Proof. unfold Int.in_int32. lia. Qed.

Lemma AlignmentPosition_run a :
  AlignmentPosition a
  = Int.int32 (length_sum is_clip (take_while is_clip (cigar_words a))).
Proof.
  unfold AlignmentPosition, cigar_words. cbv zeta.
  rewrite (for_up_scan
             (fun w p => if is_chr w "S" || is_chr w "H"
                         then Continue (Int.add_assign p (bam_cigar_oplen w))
                         else Break p)).
  apply (scan_clip_run _ 0 zero_in_int32).
Qed.

Lemma AlignmentPositionReverse_run a :
  AlignmentPositionReverse a
  = Int.int32 (length_sum is_clip (take_while is_clip (rev (cigar_words a)))).
Proof.
  unfold AlignmentPositionReverse, cigar_words. cbv zeta.
  rewrite (for_down_scan
             (fun w p => if is_chr w "S" || is_chr w "H"
                         then Continue (Int.add_assign p (bam_cigar_oplen w))
                         else Break p)).
  apply (scan_clip_run _ 0 zero_in_int32).
Qed.

Lemma AlignmentEndPosition_sub a :
  AlignmentEndPosition a = Int.sub (Length a) (AlignmentPositionReverse a).
Proof. reflexivity. Qed.

Lemma AlignmentEndPositionReverse_sub a :
  AlignmentEndPositionReverse a = Int.sub (Length a) (AlignmentPosition a).
Proof. reflexivity. Qed.

Lemma count_loop (t : Z -> bool) (t' : Z -> bool) a :
  (forall w, t w = t' w) ->
  for_up (ncigar a) 0
    (fun i p =>
       if t (word_at (bam_get_cigar a) i)
       then Continue (Int.add_assign p (bam_cigar_oplen (word_at (bam_get_cigar a) i)))
       else Continue p) 0
  = Int.int32 (length_sum t' (cigar_words a)).
Proof.
  intros E.
  rewrite (for_up_scan
             (fun w p => if t w
                         then Continue (Int.add_assign p (bam_cigar_oplen w))
                         else Continue p)).
  rewrite (scan_count t _ 0 zero_in_int32). cbn [Z.add].
  f_equal. apply length_sum_ext, E.
Qed.

Lemma NumSoftClip_sum a :
  NumSoftClip a = Int.int32 (length_sum is_soft (cigar_words a)).
Proof. apply (count_loop (fun w => is_chr w "S")), is_chr_S. Qed.

Lemma NumHardClip_sum a :
  NumHardClip a = Int.int32 (length_sum is_hard (cigar_words a)).
Proof. apply (count_loop (fun w => is_chr w "H")), is_chr_H. Qed.

Lemma NumClip_sum a :
  NumClip a = Int.int32 (length_sum is_clip (cigar_words a)).
Proof.
  apply (count_loop (fun w => is_chr w "S" || is_chr w "H")), is_clip_chr.
Qed.

(** ** Clip arithmetic *)

(** C4. [AlignmentPosition] adds up the lengths of the soft and hard
    clips from the first operation up to the first operation that is not a
    clip, and [AlignmentEndPosition] subtracts from the query length the
    same sum taken from the last operation backwards.  On a read of 100
    bases aligned as 10S80M10S they return 10 and 90. *)
Theorem clip_offsets (a : bam1_t) :
  AlignmentPosition a
  = Int.int32 (length_sum is_clip (take_while is_clip (cigar_words a)))
  /\ AlignmentEndPosition a
     = Int.sub (Length a)
         (Int.int32
            (length_sum is_clip (take_while is_clip (rev (cigar_words a)))))
  /\ (Length a = 100 ->
      cigar_words a
      = [bam_cigar_gen 10 BAM_CSOFT_CLIP; bam_cigar_gen 80 BAM_CMATCH;
         bam_cigar_gen 10 BAM_CSOFT_CLIP] ->
      AlignmentPosition a = 10 /\ AlignmentEndPosition a = 90).
Proof.
  split; [apply AlignmentPosition_run|].
  split.
  - rewrite AlignmentEndPosition_sub, AlignmentPositionReverse_run.
    reflexivity.
  - intros Hl Hw.
    rewrite AlignmentEndPosition_sub, AlignmentPositionReverse_run,
      AlignmentPosition_run, Hl, Hw.
    split; reflexivity.
Qed.

Lemma clip_offsets_witness :
  AlignmentPosition clipped_read = 10 /\ AlignmentEndPosition clipped_read = 90.
Proof.
  apply (proj2 (proj2 (clip_offsets clipped_read))); reflexivity.
Defined.

(** C7. The soft-clip count and the hard-clip count add up to the clip
    count, for every cigar array: each count is the sum, modulo 2^32, of
    the lengths of all the operations of its kind, wherever they stand.
    The addition is that of [int32_t]; it is the addition of integers
    whenever the sum of the two counts is an [int32_t], which is so when
    the clip lengths together stay below 2^31. *)
Theorem clip_counts_add (a : bam1_t) :
  Int.add (NumSoftClip a) (NumHardClip a) = NumClip a
  /\ NumSoftClip a = Int.int32 (length_sum is_soft (cigar_words a))
  /\ NumHardClip a = Int.int32 (length_sum is_hard (cigar_words a))
  /\ (Int.in_int32 (NumSoftClip a + NumHardClip a) ->
      NumSoftClip a + NumHardClip a = NumClip a)
  /\ (length_sum is_clip (cigar_words a) < 2 ^ 31 ->
      NumSoftClip a + NumHardClip a = NumClip a).
Proof.
  assert (Hadd : Int.add (NumSoftClip a) (NumHardClip a) = NumClip a).
  { rewrite NumSoftClip_sum, NumHardClip_sum, NumClip_sum, length_sum_clip.
    unfold Int.add. rewrite int32_int32_add_l, int32_int32_add_r.
    reflexivity. }
  split; [exact Hadd|].
  split; [apply NumSoftClip_sum|]. split; [apply NumHardClip_sum|].
  split.
  - intros Hfit. rewrite <- Hadd. unfold Int.add. symmetry.
    apply int32_id, Hfit.
  - rewrite NumSoftClip_sum, NumHardClip_sum, NumClip_sum, length_sum_clip.
    pose proof (length_sum_nonneg is_soft _ (cigar_words_range a)) as Hs.
    pose proof (length_sum_nonneg is_hard _ (cigar_words_range a)) as Hh.
    intros Hsum. rewrite !int32_id; unfold Int.in_int32; lia.
Qed.

Lemma clip_counts_add_witness :
  NumSoftClip clipped_read + NumHardClip clipped_read = NumClip clipped_read.
Proof.
  apply (proj2 (proj2 (proj2 (proj2 (clip_counts_add clipped_read))))).
  vm_compute. reflexivity.
Defined.

(** C9. On a record that is not empty, each end-position routine returns
    the query length minus the clip sum of the start-position routine that
    scans from the same end of the cigar array, so that
    [AlignmentPositionReverse + AlignmentEndPosition] and
    [AlignmentPosition + AlignmentEndPositionReverse] are the query
    length.  The subtraction and the addition are those of [int32_t]; the
    sums are sums of integers whenever they are an [int32_t], which is so
    when the query length is not negative and the clip lengths together
    stay below 2^31. *)
Theorem clip_offsets_complement (a : bam1_t) :
  Int.in_int32 (Length a) ->
  AlignmentEndPosition a = Int.sub (Length a) (AlignmentPositionReverse a)
  /\ AlignmentEndPositionReverse a = Int.sub (Length a) (AlignmentPosition a)
  /\ Int.add (AlignmentPositionReverse a) (AlignmentEndPosition a) = Length a
  /\ Int.add (AlignmentPosition a) (AlignmentEndPositionReverse a) = Length a
  /\ (Int.in_int32 (AlignmentPositionReverse a + AlignmentEndPosition a) ->
      AlignmentPositionReverse a + AlignmentEndPosition a = Length a)
  /\ (Int.in_int32 (AlignmentPosition a + AlignmentEndPositionReverse a) ->
      AlignmentPosition a + AlignmentEndPositionReverse a = Length a)
  /\ (0 <= Length a ->
      length_sum is_clip (cigar_words a) < 2 ^ 31 ->
      AlignmentPositionReverse a + AlignmentEndPosition a = Length a
      /\ AlignmentPosition a + AlignmentEndPositionReverse a = Length a).
Proof.
  intros Hl.
  rewrite AlignmentEndPosition_sub, AlignmentEndPositionReverse_sub.
  assert (Hadd : forall p, Int.add p (Int.sub (Length a) p) = Length a).
  { intros p. unfold Int.add, Int.sub. rewrite int32_int32_add_r.
    replace (p + (Length a - p)) with (Length a) by lia.
    apply int32_id, Hl. }
  assert (Hfit : forall p, Int.in_int32 (p + Int.sub (Length a) p) ->
                           p + Int.sub (Length a) p = Length a).
  { intros p Hp. rewrite <- (Hadd p) at 2. unfold Int.add. symmetry.
    apply int32_id, Hp. }
  split; [reflexivity|]. split; [reflexivity|].
  split; [apply Hadd|]. split; [apply Hadd|].
  split; [apply Hfit|]. split; [apply Hfit|].
  intros Hpos Hsum.
  rewrite AlignmentPositionReverse_run, AlignmentPosition_run.
  pose proof (clip_run_le _ (cigar_words_range a)) as Hf.
  assert (Forall Int.in_uint32 (rev (cigar_words a))) as Hrange.
  { apply Forall_forall. intros w Hw. apply in_rev in Hw.
    revert w Hw. apply Forall_forall, cigar_words_range. }
  pose proof (clip_run_le _ Hrange) as Hb.
  rewrite length_sum_rev in Hb.
  unfold Int.in_int32 in Hl.
  unfold Int.sub.
  rewrite !(int32_id (length_sum _ _)) by (unfold Int.in_int32; lia).
  rewrite !int32_id by (unfold Int.in_int32; lia).
  lia.
Qed.

Lemma clip_offsets_complement_witness :
  AlignmentPositionReverse clipped_read + AlignmentEndPosition clipped_read
  = Length clipped_read.
Proof.
  assert (Hl : Int.in_int32 (Length clipped_read))
    by (unfold Int.in_int32; cbn; lia).
  destruct (clip_offsets_complement clipped_read Hl)
    as (_ & _ & _ & _ & _ & _ & H).
  apply H; [cbn; lia | vm_compute; reflexivity].
Defined.

(** ** CIGAR text *)

Lemma string_app_nil_r (s : string) : (s ++ "")%string = s.
Proof. induction s as [|ch s IH]; cbn; [reflexivity | now rewrite IH]. Qed.

Lemma string_app_assoc (s t u : string) :
  ((s ++ t) ++ u)%string = (s ++ (t ++ u))%string.
Proof. induction s as [|ch s IH]; cbn; [reflexivity | now rewrite IH]. Qed.

Lemma scan_text ws :
  forall acc,
    scan (fun w cig =>
            Continue (cig ++ decimal (bam_cigar_oplen w)
                          ++ String (cigar_alphabet (Z.land w BAM_CIGAR_MASK)) ""))%string
         ws acc
    = (acc ++ cigar_text ws)%string.
Proof.
  induction ws as [|w ws IH]; intros acc; cbn [scan cigar_text fold_right].
  - symmetry. apply string_app_nil_r.
  - rewrite IH, string_app_assoc. reflexivity.
Qed.

(** [CigarString] writes the operations of the array in order. *)
Lemma CigarString_words a : CigarString a = cigar_text (cigar_words a).
Proof.
  unfold CigarString, cigar_words. cbv zeta.
  rewrite (for_up_scan
             (fun w cig =>
                Continue (cig ++ decimal (bam_cigar_oplen w)
                              ++ String (cigar_alphabet (Z.land w BAM_CIGAR_MASK)) ""))%string).
  apply scan_text.
Qed.

Lemma scan_add ws :
  forall acc,
    scan (fun w cig => Continue (add cig (mkCigarField w))) ws acc
    = acc ++ map mkCigarField ws.
Proof.
  induction ws as [|w ws IH]; intros acc; cbn [scan map].
  - symmetry. apply app_nil_r.
  - rewrite IH. unfold add. rewrite <- app_assoc. reflexivity.
Qed.

(** [GetCigar] wraps the operations of the array in order. *)
Lemma GetCigar_words a : GetCigar a = map mkCigarField (cigar_words a).
Proof.
  unfold GetCigar, cigar_words. cbv zeta.
  rewrite (for_up_scan (fun w cig => Continue (add cig (mkCigarField w)))).
  apply scan_add.
Qed.

Lemma GetCigar_raw a : map raw (GetCigar a) = cigar_words a.
Proof.
  rewrite GetCigar_words, map_map. cbn [raw]. apply map_id.
Qed.

(** C5. The text [35M10I5M] parses to three operations, which print as
    the same text, through the stream operator of [Cigar] as well as
    through [CigarString] on a record that holds them.  [CigarString]
    writes each operation as its length followed by the character that the
    10-character alphabet [MIDNSHP=XB] gives for its kind code, 0 to 9 in
    that order. *)
Theorem cigar_text_round_trip :
  cigarFromString "35M10I5M"
  = Some [mkCigarField (bam_cigar_gen 35 BAM_CMATCH);
          mkCigarField (bam_cigar_gen 10 BAM_CINS);
          mkCigarField (bam_cigar_gen 5 BAM_CMATCH)]
  /\ (forall cig,
         cigarFromString "35M10I5M" = Some cig ->
         print_Cigar cig = "35M10I5M"%string)
  /\ (forall a cig,
         cigarFromString "35M10I5M" = Some cig ->
         GetCigar a = cig ->
         CigarString a = "35M10I5M"%string)
  /\ (forall a, CigarString a = cigar_text (cigar_words a))
  /\ map cigar_alphabet
         [BAM_CMATCH; BAM_CINS; BAM_CDEL; BAM_CREF_SKIP; BAM_CSOFT_CLIP;
          BAM_CHARD_CLIP; BAM_CPAD; BAM_CEQUAL; BAM_CDIFF; BAM_CBACK]
     = list_ascii_of_string "MIDNSHP=XB".
Proof.
  assert (Hparse :
            cigarFromString "35M10I5M"
            = Some [mkCigarField (bam_cigar_gen 35 BAM_CMATCH);
                    mkCigarField (bam_cigar_gen 10 BAM_CINS);
                    mkCigarField (bam_cigar_gen 5 BAM_CMATCH)])
    by reflexivity.
  split; [exact Hparse|].
  split.
  { intros cig H. rewrite Hparse in H. injection H as <-. reflexivity. }
  split.
  { intros a cig H Ha. rewrite Hparse in H. injection H as <-.
    rewrite CigarString_words, <- GetCigar_raw, Ha. reflexivity. }
  split; [apply CigarString_words | reflexivity].
Qed.

Lemma cigar_text_round_trip_witness :
  CigarString indel_read = "35M10I5M"%string.
Proof.
  destruct cigar_text_round_trip as (Hparse & _ & Hrec & _).
  apply (Hrec indel_read _ Hparse). reflexivity.
Defined.

(** ** The layout of the record buffer *)

Lemma packed_bases_size l : Z.shiftr (l + 1) 1 = l / 2 + l mod 2.
Proof.
  rewrite Z.shiftr_div_pow2 by lia. change (2 ^ 1) with 2.
  pose proof (Z.div_mod l 2). pose proof (Z.mod_pos_bound l 2).
  pose proof (Z.div_mod (l + 1) 2). pose proof (Z.mod_pos_bound (l + 1) 2).
  lia.
Qed.

Lemma keep_regions a :
  Z.shiftl (n_cigar (core a)) 2 + l_qname (core a)
  + Z.shiftr (l_qseq (core a) + 1) 1 + l_qseq (core a)
  = regions_size a.
Proof.
  unfold regions_size. rewrite packed_bases_size, Z.shiftl_mul_pow2 by lia.
  lia.
Qed.

Lemma aux_offset_regions a :
  Z.shiftl (n_cigar (core a)) 2 + l_qname (core a)
  + l_qseq (core a) + Z.shiftr (l_qseq (core a) + 1) 1
  = regions_size a.
Proof. rewrite <- keep_regions. lia. Qed.

Lemma regions_size_nonneg a : well_formed a -> 0 <= regions_size a.
Proof.
  unfold well_formed, regions_size. intros (Hn & Hq & Hl & _).
  pose proof (Z.div_pos (l_qseq (core a)) 2).
  pose proof (Z.mod_pos_bound (l_qseq (core a)) 2).
  lia.
Qed.

Lemma realloc_shrink d n :
  (n <= List.length d)%nat -> realloc d n = firstn n d.
Proof.
  intros H. unfold realloc.
  replace (n - List.length d)%nat with 0%nat by lia.
  apply app_nil_r.
Qed.

Lemma bam_get_aux_all a :
  well_formed a ->
  bam_get_aux a = skipn (Z.to_nat (regions_size a)) (data a).
Proof.
  intros Hwf. unfold bam_get_aux. rewrite aux_offset_regions.
  destruct Hwf as (_ & _ & _ & Hlen & _).
  rewrite Hlen, Nat2Z.id, firstn_all. reflexivity.
Qed.

(** C3. After [RemoveAllTags] the buffer length is the size of the name,
    the cigar array (4 bytes per operation), the packed bases (query
    length over 2, rounded up) and the qualities (one byte per base): it
    is computed from the core fields alone, so it is the same whatever
    tags the buffer held before, and no tag is left. *)
Theorem RemoveAllTags_length (a : bam1_t) :
  well_formed a ->
  l_data (RemoveAllTags a)
  = 4 * n_cigar (core a) + l_qname (core a)
    + (l_qseq (core a) / 2 + l_qseq (core a) mod 2) + l_qseq (core a)
  /\ Z.of_nat (List.length (data (RemoveAllTags a))) = l_data (RemoveAllTags a)
  /\ data (RemoveAllTags a) = firstn (Z.to_nat (regions_size a)) (data a)
  /\ bam_get_aux (RemoveAllTags a) = []
  /\ (forall a',
         well_formed a' -> core a' = core a ->
         l_data (RemoveAllTags a') = l_data (RemoveAllTags a)).
Proof.
  intros Hwf.
  assert (Hlen : forall x, well_formed x ->
                           l_data (RemoveAllTags x) = regions_size x).
  { intros x Hx. unfold RemoveAllTags. cbn [l_data]. rewrite keep_regions.
    pose proof (regions_size_nonneg x Hx).
    destruct Hx as (_ & _ & _ & _ & Hx).
    apply int32_id. unfold Int.in_int32. lia. }
  assert (Hdata : data (RemoveAllTags a)
                  = firstn (Z.to_nat (regions_size a)) (data a)).
  { unfold RemoveAllTags. cbn [data]. rewrite keep_regions.
    apply realloc_shrink.
    destruct Hwf as (_ & _ & _ & Hl & Hr). lia. }
  pose proof (regions_size_nonneg a Hwf) as Hnn.
  assert (Hfit : (Z.to_nat (regions_size a) <= List.length (data a))%nat).
  { destruct Hwf as (_ & _ & _ & Hl & Hr). lia. }
  split; [apply (Hlen a Hwf)|].
  split.
  { rewrite Hdata, (Hlen a Hwf), length_firstn. lia. }
  split; [exact Hdata|].
  split.
  { unfold bam_get_aux. rewrite aux_offset_regions.
    change (core (RemoveAllTags a)) with (core a).
    unfold regions_size at 1. change (core (RemoveAllTags a)) with (core a).
    fold (regions_size a).
    apply skipn_all2. rewrite length_firstn, Hdata, length_firstn. lia. }
  intros a' Hwf' Hcore.
  rewrite (Hlen a' Hwf'), (Hlen a Hwf). unfold regions_size.
  rewrite Hcore. reflexivity.
Qed.

(** Decides [well_formed] on a closed record by evaluation. *)
Ltac eval_well_formed :=
  unfold well_formed; repeat split; vm_compute;
  first [reflexivity | discriminate].

Lemma well_formed_tagged_read : well_formed tagged_read.
Proof. eval_well_formed. Defined.

Lemma RemoveAllTags_length_witness :
  l_data tagged_read = 26 /\ l_data (RemoveAllTags tagged_read) = 13.
Proof.
  split; [reflexivity|].
  rewrite (proj1 (RemoveAllTags_length tagged_read well_formed_tagged_read)).
  reflexivity.
Defined.

(** ** The tag scan *)

Lemma aux_scan_cons y k0 s1 :
  aux_scan y (k0 :: s1)
  = if key16 k0 (deref s1) =? y then Returns (Some (advance s1 1))
    else match skip_aux (advance s1 1) with
         | None => Aborts
         | Some s' => aux_scan y s'
         end.
Proof.
  simp aux_scan.
  destruct (key16 k0 (deref s1) =? y); cbn; [reflexivity|].
  destruct (skip_aux _); reflexivity.
Qed.

Lemma skip_nonzero_app body z rest :
  forallb nonzero body = true -> nonzero z = false ->
  skip_nonzero (body ++ z :: rest) = z :: rest.
Proof.
  unfold nonzero. intros Hb Hz. induction body as [|x body IH]; cbn.
  - destruct (Int.of_byte z =? 0); [reflexivity | discriminate].
  - cbn in Hb. apply andb_prop in Hb. destruct Hb as [Hx Hb].
    destruct (Int.of_byte x =? 0); [discriminate | apply IH, Hb].
Qed.

Lemma skipn_app_exact {A : Type} (p rest : list A) n :
  n = List.length p -> skipn n (p ++ rest) = rest.
Proof.
  intros ->. rewrite skipn_app, skipn_all, Nat.sub_diag. reflexivity.
Qed.

Lemma le32_app s rest :
  (4 <= List.length s)%nat -> Int.le32 (s ++ rest) = Int.le32 s.
Proof.
  intros H. unfold Int.le32. rewrite !app_nth1 by lia. reflexivity.
Qed.

(** [skip_aux] steps over exactly the payload of a well-sized tag. *)
Lemma skip_aux_payload e rest :
  payload_ok e = true ->
  skip_aux (tag_type e :: tag_payload e ++ rest) = Some rest.
Proof.
  unfold payload_ok, skip_aux. cbn [deref nth advance skipn].
  destruct ((aux_type2size (tag_type e) =? 90)
            || (aux_type2size (tag_type e) =? 72)).
  - destruct (rev (tag_payload e)) as [|z body] eqn:Erev; [discriminate|].
    intros H. apply andb_prop in H. destruct H as [Hz Hbody].
    apply (f_equal (@rev byte)) in Erev. rewrite rev_involutive in Erev.
    cbn [rev] in Erev. rewrite Erev, <- app_assoc. cbn [app].
    rewrite skip_nonzero_app.
    + reflexivity.
    + apply forallb_forall. intros x Hx. apply in_rev in Hx.
      revert x Hx. apply forallb_forall, Hbody.
    + apply negb_true_iff, Hz.
  - destruct (aux_type2size (tag_type e) =? 66).
    + destruct (tag_payload e) as [|sub r]; [discriminate|].
      intros H. apply andb_prop in H. destruct H as [H4 Hn].
      apply Nat.leb_le in H4. apply Z.eqb_eq in Hn.
      cbn [app deref nth advance skipn].
      change (match r ++ rest with
              | _ :: _ :: _ :: _ :: l => l
              | _ => []
              end) with (skipn 4 (r ++ rest)).
      rewrite (le32_app r rest H4), <- Hn, Nat2Z.id.
      unfold advance. rewrite skipn_skipn. f_equal.
      apply skipn_app_exact. lia.
    + destruct (aux_type2size (tag_type e) =? 0); [discriminate|].
      intros H. apply Z.eqb_eq in H. rewrite <- H, Nat2Z.id.
      f_equal. apply skipn_app_exact. reflexivity.
Qed.

(** A well-sized tag with another key is stepped over. *)
Lemma aux_scan_other y e rest :
  payload_ok e = true ->
  (key16 (tag_k0 e) (tag_k1 e) =? y) = false ->
  aux_scan y (encode_tag e ++ rest) = aux_scan y rest.
Proof.
  intros Hok Hkey. unfold encode_tag. cbn [app].
  rewrite aux_scan_cons. cbn [deref nth advance skipn].
  rewrite Hkey, skip_aux_payload by exact Hok. reflexivity.
Qed.

(** No tag of a list of well-sized tags has the key: the scan goes on
    with what follows the list. *)
Lemma aux_scan_absent y es rest :
  forallb payload_ok es = true ->
  existsb (fun e => key16 (tag_k0 e) (tag_k1 e) =? y) es = false ->
  aux_scan y (encode_tags es ++ rest) = aux_scan y rest.
Proof.
  induction es as [|e es IH]; cbn [forallb existsb]; intros Hok Hkey.
  - reflexivity.
  - apply andb_prop in Hok. destruct Hok as [He Hes].
    apply orb_false_elim in Hkey. destruct Hkey as [Hk Hks].
    unfold encode_tags. cbn [flat_map]. rewrite <- app_assoc.
    rewrite aux_scan_other by assumption. apply IH; assumption.
Qed.

(** The first tag has the key: the scan returns the address of its type
    code. *)
Lemma aux_scan_found y k0 k1 t :
  key16 k0 k1 = y -> aux_scan y (k0 :: k1 :: t) = Returns (Some t).
Proof.
  intros <-. rewrite aux_scan_cons. cbn [deref nth advance skipn].
  rewrite Z.eqb_refl. reflexivity.
Qed.

Lemma bam_aux2i_int v rest :
  Int.in_int32 v ->
  bam_aux2i (byte_of_ascii "i" :: Int.le32_bytes v ++ rest) = v.
Proof.
  intros Hv. unfold bam_aux2i. cbn [deref nth].
  change (ascii_of_byte (byte_of_ascii "i")) with "i"%char. cbv iota.
  change (advance (byte_of_ascii "i" :: Int.le32_bytes v ++ rest) 1)
    with (Int.le32_bytes v ++ rest).
  rewrite le32_le32_bytes, int32_uint32. apply int32_id, Hv.
Qed.

(** [bam_aux_append] leaves the tags in place and puts the new one after
    them. *)
Lemma bam_get_aux_append a tag type len d :
  well_formed a ->
  0 <= len -> (Z.to_nat len <= List.length d)%nat ->
  l_data a + 3 + len < 2 ^ 31 ->
  bam_get_aux (bam_aux_append a tag type len d)
  = bam_get_aux a
      ++ [key_byte tag 0; key_byte tag 1; type] ++ firstn (Z.to_nat len) d.
Proof.
  intros Hwf Hlen Hd Hfit.
  rewrite (bam_get_aux_all a Hwf).
  pose proof (regions_size_nonneg a Hwf) as Hnn.
  destruct Hwf as (_ & _ & _ & Hl & Hr).
  unfold bam_get_aux, bam_aux_append. cbn [core l_data data].
  rewrite aux_offset_regions.
  change (regions_size {| core := core a; l_data := _; m_data := _; data := _ |})
    with (regions_size a).
  rewrite int32_id by (unfold Int.in_int32; lia).
  rewrite realloc_shrink by lia.
  rewrite Hl, Nat2Z.id, firstn_all.
  rewrite firstn_all2.
  - rewrite skipn_app.
    replace (Z.to_nat (regions_size a) - List.length (data a))%nat
      with 0%nat by lia.
    reflexivity.
  - rewrite !length_app, length_firstn. cbn [List.length]. lia.
Qed.

Lemma of_byte_inj x y : Int.of_byte x = Int.of_byte y -> x = y.
Proof.
  unfold Int.of_byte. intros H. apply N2Z.inj in H.
  pose proof (Byte.of_to_N x) as Hx. rewrite H, Byte.of_to_N in Hx.
  congruence.
Qed.

Lemma key16_value k0 k1 : key16 k0 k1 = 256 * Int.of_byte k0 + Int.of_byte k1.
Proof.
  unfold key16.
  pose proof (of_byte_range k0) as H0. pose proof (of_byte_range k1) as H1.
  rewrite Z.shiftl_mul_pow2 by lia. change (2 ^ 8) with 256.
  pose proof (Z.add_lor_land (Int.of_byte k0 * 256) (Int.of_byte k1)) as Hsum.
  enough (Z.land (Int.of_byte k0 * 256) (Int.of_byte k1) = 0) by lia.
  apply Z.bits_inj'. intros n Hn. rewrite Z.land_spec, Z.bits_0.
  destruct (Z.lt_ge_cases n 8) as [Hlt|Hge].
  - change 256 with (2 ^ 8). rewrite Z.mul_pow2_bits_low by lia. reflexivity.
  - rewrite <- (Z.mod_small (Int.of_byte k1) (2 ^ 8)) by (change (2 ^ 8) with 256; lia).
    rewrite Z.mod_pow2_bits_high by lia. apply andb_false_r.
Qed.

(** The scan compares the two key characters. *)
Lemma key16_eqb tag e :
  (key16 (tag_k0 e) (tag_k1 e) =? key16 (key_byte tag 0) (key_byte tag 1))
  = has_key tag e.
Proof.
  unfold has_key. rewrite !key16_value.
  pose proof (of_byte_range (tag_k0 e)). pose proof (of_byte_range (tag_k1 e)).
  pose proof (of_byte_range (key_byte tag 0)).
  pose proof (of_byte_range (key_byte tag 1)).
  assert (Hneq : forall x y, Byte.eqb x y = false -> Int.of_byte x <> Int.of_byte y).
  { intros x y Hxy Heq. apply of_byte_inj in Heq. subst y.
    rewrite (Byte.byte_dec_lb eq_refl) in Hxy. discriminate. }
  destruct (Byte.eqb (tag_k0 e) (key_byte tag 0)) eqn:E0;
    destruct (Byte.eqb (tag_k1 e) (key_byte tag 1)) eqn:E1; cbn [andb];
    try apply Hneq in E0; try apply Hneq in E1.
  - apply Byte.byte_dec_bl in E0, E1. rewrite E0, E1. apply Z.eqb_refl.
  - apply Z.eqb_neq. apply Byte.byte_dec_bl in E0. rewrite E0. lia.
  - apply Z.eqb_neq. lia.
  - apply Z.eqb_neq. lia.
Qed.

Lemma existsb_ext_eq {A : Type} (f g : A -> bool) l :
  (forall x, f x = g x) -> existsb f l = existsb g l.
Proof.
  intros E. induction l as [|x l IH]; cbn; [reflexivity|].
  rewrite E, IH. reflexivity.
Qed.

(** C6. On a record that is not empty, whose tags are well-sized and none
    of which has the 2-character key, [GetIntTag] returns 0, which is not
    an error; after [AddIntTag] with the key and a 32-bit value, the new
    tag follows the old ones and [GetIntTag] returns the value.  The
    witness below is the key [XP] with the value 7. *)
Theorem int_tag_absent_then_added
        (a : bam1_t) (tag : string) (v : Z) (es : list aux_tag) :
  well_formed a ->
  l_data a + 7 < 2 ^ 31 ->
  bam_get_aux a = encode_tags es ->
  forallb payload_ok es = true ->
  existsb (has_key tag) es = false ->
  Int.in_int32 v ->
  GetIntTag a tag = Returns 0
  /\ bam_get_aux (AddIntTag a tag v) = encode_tags (es ++ [int_tag tag v])
  /\ GetIntTag (AddIntTag a tag v) tag = Returns v.
Proof.
  intros Hwf Hfit Haux Hok Hkey Hv.
  set (y := key16 (key_byte tag 0) (key_byte tag 1)).
  assert (Hkey' : existsb (fun e => key16 (tag_k0 e) (tag_k1 e) =? y) es = false).
  { rewrite <- Hkey. apply existsb_ext_eq. intros e. apply key16_eqb. }
  assert (Hnew : bam_get_aux (AddIntTag a tag v)
                 = encode_tags es ++ encode_tag (int_tag tag v)).
  { unfold AddIntTag. rewrite bam_get_aux_append; try assumption.
    - rewrite Haux. reflexivity.
    - lia.
    - cbn. lia.
    - lia. }
  split; [|split].
  - unfold GetIntTag, bam_aux_get. fold y.
    rewrite Haux, <- (app_nil_r (encode_tags es)).
    rewrite (aux_scan_absent y es [] Hok Hkey'). simp aux_scan. reflexivity.
  - rewrite Hnew. unfold encode_tags. rewrite flat_map_app. cbn [flat_map].
    rewrite app_nil_r. reflexivity.
  - unfold GetIntTag, bam_aux_get. fold y.
    rewrite Hnew, (aux_scan_absent y es _ Hok Hkey').
    unfold encode_tag, int_tag. cbn [tag_k0 tag_k1 tag_type tag_payload].
    rewrite (aux_scan_found y) by reflexivity.
    rewrite <- (app_nil_r (Int.le32_bytes v)).
    rewrite bam_aux2i_int by exact Hv. reflexivity.
Qed.

Lemma int_tag_absent_then_added_witness :
  GetIntTag tagged_read "XP" = Returns 0
  /\ GetIntTag (AddIntTag tagged_read "XP" 7) "XP" = Returns 7.
Proof.
  pose (es := [ {| tag_k0 := byte_of_ascii "N"; tag_k1 := byte_of_ascii "M";
                   tag_type := byte_of_ascii "i";
                   tag_payload := Int.le32_bytes 2 |};
                {| tag_k0 := byte_of_ascii "R"; tag_k1 := byte_of_ascii "G";
                   tag_type := byte_of_ascii "Z";
                   tag_payload := [byte_of_ascii "g"; byte_of_ascii "1"; x00] |} ]).
  destruct (int_tag_absent_then_added tagged_read "XP" 7 es)
    as (H0 & _ & H7).
  - eval_well_formed.
  - vm_compute. reflexivity.
  - vm_compute. reflexivity.
  - vm_compute. reflexivity.
  - vm_compute. reflexivity.
  - unfold Int.in_int32. lia.
  - split; [exact H0 | exact H7].
Defined.

(** * Further properties *)

(** ** Flags *)

(** X1. [PairMappedFlag] is the conjunction of [PairedFlag], [MappedFlag]
    and [MateMappedFlag], on every record, the empty one included. *)
Theorem PairMappedFlag_conj (r : BamRecord) :
  PairMappedFlag r = PairedFlag r && MappedFlag r && MateMappedFlag r.
Proof.
  destruct r as [[a|]]; [|reflexivity].
  unfold PairMappedFlag, PairedFlag, MappedFlag, MateMappedFlag, guarded,
    flag_set, flag_clear, Int.truthy. cbn [b].
  destruct (Z.land (flag (core a)) BAM_FMUNMAP =? 0),
           (Z.land (flag (core a)) BAM_FUNMAP =? 0),
           (Z.land (flag (core a)) BAM_FPAIRED =? 0); reflexivity.
Qed.

Lemma PairOrientation_mapped_defined r :
  PairMappedFlag r = true -> PairOrientation r <> Some UDORIENTATION.
Proof.
  intros Hpm. unfold PairOrientation. rewrite Hpm. cbn [negb].
  destruct (ReverseFlag r), (MateReverseFlag r); cbn [negb andb orb];
    destruct (Position r <=? MatePosition r),
             (Position r >=? MatePosition r),
             (Position r <? MatePosition r),
             (Position r >? MatePosition r);
    cbn [negb andb orb]; discriminate.
Qed.

(** X2. [PairOrientation] returns on every record, and it returns the
    undefined orientation exactly when the pair is not mapped. *)
Theorem PairOrientation_undefined_iff (r : BamRecord) :
  PairOrientation r <> None
  /\ (PairOrientation r = Some UDORIENTATION <-> PairMappedFlag r = false).
Proof.
  split; [apply PairOrientation_returns|].
  destruct (PairMappedFlag r) eqn:Hpm.
  - split; [|discriminate].
    intros H. exfalso. exact (PairOrientation_mapped_defined r Hpm H).
  - unfold PairOrientation. rewrite Hpm. cbn [negb]. tauto.
Qed.

(** X3. The two reads of a pair get the same orientation: when the
    strands and positions of one record are those of the mate in the
    other, [PairOrientation] agrees on both. *)
Theorem PairOrientation_mates (r1 r2 : BamRecord) :
  PairMappedFlag r1 = PairMappedFlag r2 ->
  ReverseFlag r1 = MateReverseFlag r2 ->
  MateReverseFlag r1 = ReverseFlag r2 ->
  Position r1 = MatePosition r2 ->
  MatePosition r1 = Position r2 ->
  PairOrientation r1 = PairOrientation r2.
Proof.
  intros Hpm Hr Hm Hp Hq. unfold PairOrientation.
  rewrite Hpm, Hr, Hm, Hp, Hq.
  destruct (PairMappedFlag r2); cbn [negb]; [|reflexivity].
  destruct (MateReverseFlag r2), (ReverseFlag r2); cbn [negb andb orb];
    destruct (Z.leb_spec (MatePosition r2) (Position r2)),
             (Z.geb_spec (MatePosition r2) (Position r2)),
             (Z.ltb_spec (MatePosition r2) (Position r2)),
             (Z.gtb_spec (MatePosition r2) (Position r2)),
             (Z.leb_spec (Position r2) (MatePosition r2)),
             (Z.geb_spec (Position r2) (MatePosition r2)),
             (Z.ltb_spec (Position r2) (MatePosition r2)),
             (Z.gtb_spec (Position r2) (MatePosition r2));
    cbn [negb andb orb]; try reflexivity; lia.
Qed.

Lemma PairOrientation_mates_witness :
  PairOrientation (mkBamRecord (Some clipped_read))
  = PairOrientation (mkBamRecord (Some clipped_mate)).
Proof.
  apply PairOrientation_mates; reflexivity.
Defined.

(** X4. For the upstream read of a mapped pair on one chromosome,
    [ProperOrientation] is true exactly when [PairOrientation] is
    forward-reverse. *)
Theorem ProperOrientation_upstream (r : BamRecord) :
  PairMappedFlag r = true ->
  ChrID r = MateChrID r ->
  Position r < MatePosition r ->
  (ProperOrientation r = true <-> PairOrientation r = Some FRORIENTATION).
Proof.
  intros Hpm Hchr Hpos.
  destruct (PairMapped_not_empty r Hpm) as [a Ha].
  rewrite (ProperOrientation_spec r a Ha).
  assert (Ep : Position r = pos (core a))
    by (unfold Position, guarded; rewrite Ha; reflexivity).
  assert (Em : MatePosition r = mpos (core a))
    by (unfold MatePosition, guarded; rewrite Ha; reflexivity).
  assert (Ec : ChrID r = tid (core a))
    by (unfold ChrID, guarded; rewrite Ha; reflexivity).
  assert (Ed : MateChrID r = mtid (core a))
    by (unfold MateChrID, guarded; rewrite Ha; reflexivity).
  rewrite <- Ep, <- Em, <- Ec, <- Ed.
  unfold PairOrientation. rewrite Hpm. cbn [negb].
  replace (ChrID r =? MateChrID r) with true
    by (symmetry; apply Z.eqb_eq, Hchr).
  destruct (ReverseFlag r), (MateReverseFlag r); cbn [negb andb orb];
    destruct (Z.leb_spec (Position r) (MatePosition r)),
             (Z.geb_spec (Position r) (MatePosition r)),
             (Z.ltb_spec (Position r) (MatePosition r)),
             (Z.gtb_spec (Position r) (MatePosition r));
    cbn [negb andb orb]; try lia;
    split; intros Hx; try discriminate; reflexivity.
Qed.

Lemma ProperOrientation_upstream_witness :
  ProperOrientation (mkBamRecord (Some clipped_read)) = true.
Proof.
  apply ProperOrientation_upstream; [reflexivity | reflexivity | cbn; lia |].
  reflexivity.
Defined.

(** X5. A record is interchromosomal exactly when its pair is mapped and
    the two chromosome ids differ; then [ProperOrientation] is false,
    [FullInsertSize] is 0 and [PairOrientation] is still one of the four
    defined orientations. *)
Theorem Interchromosomal_pair (r : BamRecord) :
  (Interchromosomal r = true <->
   PairMappedFlag r = true /\ ChrID r <> MateChrID r)
  /\ (Interchromosomal r = true ->
      ProperOrientation r = false
      /\ PairOrientation r <> Some UDORIENTATION
      /\ exists a, b r = Some a /\ FullInsertSize a = 0).
Proof.
  destruct r as [[a|]].
  - unfold Interchromosomal, ChrID, MateChrID, guarded. cbn [b].
    assert (Hiff : negb (tid (core a) =? mtid (core a))
                   && PairMappedFlag {| b := Some a |} = true <->
                   PairMappedFlag {| b := Some a |} = true
                   /\ tid (core a) <> mtid (core a)).
    { rewrite andb_true_iff, negb_true_iff, Z.eqb_neq. tauto. }
    split; [exact Hiff|].
    intros H. apply Hiff in H. destruct H as [Hpm Hne].
    apply Z.eqb_neq in Hne.
    split; [|split].
    + unfold ProperOrientation. cbn [b]. rewrite Hne. reflexivity.
    + apply PairOrientation_mapped_defined, Hpm.
    + exists a. split; [reflexivity|].
      unfold FullInsertSize. rewrite Hne. reflexivity.
  - split; [|discriminate].
    split; [discriminate | intros [H _]; discriminate].
Qed.

Lemma Interchromosomal_pair_witness :
  ProperOrientation (mkBamRecord (Some split_pair)) = false.
Proof.
  apply (proj2 (Interchromosomal_pair (mkBamRecord (Some split_pair)))).
  reflexivity.
Defined.

(** X6. [FullInsertSize] is 0 when the pair is not mapped or lies on two
    chromosomes; otherwise, as long as the [int] arithmetic does not
    overflow, it is the distance between the two positions plus the query
    length, so it is the same for both reads of the pair and never below
    the query length. *)
Theorem FullInsertSize_value (a : bam1_t) :
  (PairMappedFlag (mkBamRecord (Some a)) = false \/ tid (core a) <> mtid (core a) ->
   FullInsertSize a = 0)
  /\ (PairMappedFlag (mkBamRecord (Some a)) = true ->
      tid (core a) = mtid (core a) ->
      0 <= l_qseq (core a) ->
      Int.in_int32 (pos (core a) - mpos (core a)) ->
      Int.in_int32 (Z.abs (pos (core a) - mpos (core a)) + l_qseq (core a)) ->
      FullInsertSize a = Z.abs (pos (core a) - mpos (core a)) + l_qseq (core a)
      /\ Length a <= FullInsertSize a).
Proof.
  unfold FullInsertSize. split.
  - intros [Hpm | Hne].
    + rewrite Hpm. cbn [negb]. rewrite orb_true_r. reflexivity.
    + apply Z.eqb_neq in Hne. rewrite Hne. reflexivity.
  - intros Hpm Hchr Hl Hsub Hsum.
    apply Z.eqb_eq in Hchr. rewrite Hchr, Hpm. cbn [negb orb].
    unfold Int.add, Int.sub, Length.
    rewrite (int32_id (pos (core a) - mpos (core a))) by exact Hsub.
    pose proof (Z.abs_nonneg (pos (core a) - mpos (core a))) as Habs.
    rewrite (int32_id (Z.abs _)) by (unfold Int.in_int32 in *; lia).
    rewrite int32_id by exact Hsum.
    split; [reflexivity | lia].
Qed.

Lemma FullInsertSize_value_witness :
  FullInsertSize clipped_read = 300 /\ FullInsertSize clipped_mate = 300.
Proof.
  split.
  - apply (proj2 (FullInsertSize_value clipped_read));
      first [reflexivity | unfold Int.in_int32; cbn; lia | cbn; lia].
  - apply (proj2 (FullInsertSize_value clipped_mate));
      first [reflexivity | unfold Int.in_int32; cbn; lia | cbn; lia].
Defined.

(** ** Sort orders *)

(** The lexicographic order on pairs of integers, as the two comparators
    write it. *)
Lemma lex_lt_order (c1 p1 c2 p2 c3 p3 : Z) :
  let lt x y u v := (x <? u) || ((x =? u) && (y <? v)) in
  lt c1 p1 c1 p1 = false
  /\ (lt c1 p1 c2 p2 = true -> lt c2 p2 c1 p1 = false)
  /\ (lt c1 p1 c2 p2 = true -> lt c2 p2 c3 p3 = true -> lt c1 p1 c3 p3 = true)
  /\ (lt c1 p1 c2 p2 = false /\ lt c2 p2 c1 p1 = false <-> c1 = c2 /\ p1 = p2).
Proof.
  cbv zeta.
  repeat split; intros;
    repeat match goal with
           | H : _ /\ _ |- _ => destruct H
           | H : context [?x <? ?y] |- _ => destruct (Z.ltb_spec x y)
           | H : context [?x =? ?y] |- _ => destruct (Z.eqb_spec x y)
           | |- context [?x <? ?y] => destruct (Z.ltb_spec x y)
           | |- context [?x =? ?y] => destruct (Z.eqb_spec x y)
           end;
    cbn in *; try discriminate; try reflexivity; try lia.
Qed.

(** X7. [ByReadPosition] is a strict weak order on records, the empty
    ones included: irreflexive, asymmetric and transitive, and two records
    are unordered exactly when they share chromosome id and position. *)
Theorem ByReadPosition_strict_weak_order (x y z : BamRecord) :
  BamRecordSort.ByReadPosition x x = false
  /\ (BamRecordSort.ByReadPosition x y = true ->
      BamRecordSort.ByReadPosition y x = false)
  /\ (BamRecordSort.ByReadPosition x y = true ->
      BamRecordSort.ByReadPosition y z = true ->
      BamRecordSort.ByReadPosition x z = true)
  /\ (BamRecordSort.ByReadPosition x y = false
      /\ BamRecordSort.ByReadPosition y x = false <->
      ChrID x = ChrID y /\ Position x = Position y).
Proof.
  apply (lex_lt_order (ChrID x) (Position x) (ChrID y) (Position y)
                      (ChrID z) (Position z)).
Qed.

Lemma ByReadPosition_strict_weak_order_witness :
  BamRecordSort.ByReadPosition empty_record (mkBamRecord (Some clipped_mate))
  = true.
Proof.
  destruct (ByReadPosition_strict_weak_order
              empty_record (mkBamRecord (Some clipped_read))
              (mkBamRecord (Some clipped_mate))) as (_ & _ & Htrans & _).
  apply Htrans; reflexivity.
Defined.

(** X8. [ByMatePosition] is a strict weak order on records in the same
    way, on the mate's chromosome id and position. *)
Theorem ByMatePosition_strict_weak_order (x y z : BamRecord) :
  BamRecordSort.ByMatePosition x x = false
  /\ (BamRecordSort.ByMatePosition x y = true ->
      BamRecordSort.ByMatePosition y x = false)
  /\ (BamRecordSort.ByMatePosition x y = true ->
      BamRecordSort.ByMatePosition y z = true ->
      BamRecordSort.ByMatePosition x z = true)
  /\ (BamRecordSort.ByMatePosition x y = false
      /\ BamRecordSort.ByMatePosition y x = false <->
      MateChrID x = MateChrID y /\ MatePosition x = MatePosition y).
Proof.
  apply (lex_lt_order (MateChrID x) (MatePosition x) (MateChrID y)
                      (MatePosition y) (MateChrID z) (MatePosition z)).
Qed.

Lemma ByMatePosition_strict_weak_order_witness :
  BamRecordSort.ByMatePosition empty_record (mkBamRecord (Some clipped_read))
  = true.
Proof.
  destruct (ByMatePosition_strict_weak_order
              empty_record (mkBamRecord (Some clipped_mate))
              (mkBamRecord (Some clipped_read))) as (_ & _ & Htrans & _).
  apply Htrans; reflexivity.
Defined.

(** ** The cigar array *)

Lemma scan_add_rev ws :
  forall acc,
    scan (fun w cig => Continue (add cig (mkCigarField w))) (rev ws) acc
    = acc ++ rev (map mkCigarField ws).
Proof.
  intros acc. rewrite scan_add, map_rev. reflexivity.
Qed.

(** X9. [GetCigar] returns the [n_cigar] operations of the array in order,
    the i-th one wrapping the i-th word, and [GetReverseCigar] returns the
    same operations in the opposite order. *)
Theorem GetReverseCigar_rev (a : bam1_t) :
  GetReverseCigar a = rev (GetCigar a)
  /\ List.length (GetCigar a) = Z.to_nat (n_cigar (core a))
  /\ List.length (GetReverseCigar a) = Z.to_nat (n_cigar (core a))
  /\ (forall i, (i < Z.to_nat (n_cigar (core a)))%nat ->
      nth_error (GetCigar a) i
      = Some (mkCigarField (word_at (bam_get_cigar a) i))).
Proof.
  assert (Hrev : GetReverseCigar a = rev (GetCigar a)).
  { rewrite GetCigar_words. unfold GetReverseCigar, cigar_words. cbv zeta.
    rewrite (for_down_scan (fun w cig => Continue (add cig (mkCigarField w)))).
    apply scan_add_rev. }
  assert (Hlen : List.length (GetCigar a) = Z.to_nat (n_cigar (core a))).
  { rewrite GetCigar_words. unfold cigar_words, ncigar.
    rewrite !length_map, length_seq. reflexivity. }
  split; [exact Hrev|]. split; [exact Hlen|].
  split; [rewrite Hrev, length_rev; exact Hlen|].
  intros i Hi. rewrite GetCigar_words. unfold cigar_words, ncigar.
  rewrite map_map.
  rewrite (nth_error_map (fun x => mkCigarField (word_at (bam_get_cigar a) x))).
  rewrite nth_error_seq.
  replace (i <? Z.to_nat (n_cigar (core a)))%nat with true
    by (symmetry; apply Nat.ltb_lt, Hi).
  reflexivity.
Qed.

Lemma GetReverseCigar_rev_witness :
  nth_error (GetCigar gapped_read) 3
  = Some (mkCigarField (bam_cigar_gen 3 BAM_CINS)).
Proof.
  rewrite (proj2 (proj2 (proj2 (GetReverseCigar_rev gapped_read))) 3%nat).
  - reflexivity.
  - cbn. lia.
Defined.

Lemma is_chr_I w : is_chr w "I" = is_kind BAM_CINS w.
Proof.
  unfold is_chr, is_kind, bam_cigar_opchr.
  by_kind w; rewrite Hop; reflexivity.
Qed.

Lemma is_chr_D w : is_chr w "D" = is_kind BAM_CDEL w.
Proof.
  unfold is_chr, is_kind, bam_cigar_opchr.
  by_kind w; rewrite Hop; reflexivity.
Qed.

Lemma is_chr_M w : is_chr w "M" = is_kind BAM_CMATCH w.
Proof.
  unfold is_chr, is_kind, bam_cigar_opchr.
  by_kind w; rewrite Hop; reflexivity.
Qed.

Lemma length_max_cons f w ws :
  length_max f (w :: ws)
  = if f w then Z.max (bam_cigar_oplen w) (length_max f ws)
    else length_max f ws.
Proof. reflexivity. Qed.

Lemma length_max_ext f g ws :
  (forall w, f w = g w) -> length_max f ws = length_max g ws.
Proof.
  intros E. induction ws as [|w ws IH]; [reflexivity|].
  rewrite !length_max_cons, E, IH. reflexivity.
Qed.

(** The running maximum of the loop, started at [m]. *)
Lemma scan_max (t : Z -> bool) ws :
  forall m,
    0 <= m ->
    scan (fun w imax =>
            if t w then Continue (Z.max (bam_cigar_oplen w) imax)
            else Continue imax) ws m
    = Z.max m (length_max t ws).
Proof.
  induction ws as [|w ws IH]; intros m Hm; cbn [scan].
  - cbn. lia.
  - rewrite length_max_cons. destruct (t w); rewrite IH; lia.
Qed.

Lemma length_max_bounds f ws :
  Forall Int.in_uint32 ws ->
  0 <= length_max f ws
  /\ (forall w, In w ws -> f w = true -> bam_cigar_oplen w <= length_max f ws)
  /\ (length_max f ws = 0
      \/ exists w, In w ws /\ f w = true
                   /\ bam_cigar_oplen w = length_max f ws).
Proof.
  induction 1 as [|w ws Hw Hws (IH0 & IHub & IHat)].
  - cbn. split; [lia|]. split; [intros w []|]. left. reflexivity.
  - rewrite length_max_cons. pose proof (oplen_nonneg w Hw) as Hlen.
    destruct (f w) eqn:Ef.
    + split; [lia|]. split.
      * intros w' [<- | Hin] Hf; [lia|].
        specialize (IHub w' Hin Hf). lia.
      * right.
        destruct (Z.max_spec (bam_cigar_oplen w) (length_max f ws))
          as [[Hlt ->] | [Hge ->]].
        -- destruct IHat as [H0 | (w' & Hin & Hf & Heq)]; [lia|].
           exists w'. split; [right; exact Hin|]. split; assumption.
        -- exists w. split; [left; reflexivity|]. split; [exact Ef|reflexivity].
    + split; [exact IH0|]. split.
      * intros w' [<- | Hin] Hf; [congruence|]. apply IHub; assumption.
      * destruct IHat as [H0 | (w' & Hin & Hf & Heq)]; [left; exact H0|].
        right. exists w'. split; [right; exact Hin|]. split; assumption.
Qed.

Lemma max_loop (t t' : Z -> bool) a :
  (forall w, t w = t' w) ->
  for_up (ncigar a) 0
    (fun i imax =>
       if t (word_at (bam_get_cigar a) i)
       then Continue (Z.max (bam_cigar_oplen (word_at (bam_get_cigar a) i)) imax)
       else Continue imax) 0
  = length_max t' (cigar_words a).
Proof.
  intros E.
  rewrite (for_up_scan
             (fun w imax => if t w then Continue (Z.max (bam_cigar_oplen w) imax)
                            else Continue imax)).
  rewrite scan_max by lia.
  pose proof (proj1 (length_max_bounds t _ (cigar_words_range a))) as H0.
  fold (cigar_words a). rewrite Z.max_r by exact H0.
  apply length_max_ext, E.
Qed.

(** X10. [MaxInsertionBases] is an upper bound of the length of every
    insertion of the cigar array; it is the length of one of them, or 0
    when there is none. *)
Theorem MaxInsertionBases_bound (a : bam1_t) :
  0 <= MaxInsertionBases a
  /\ (forall w, In w (cigar_words a) -> bam_cigar_op w = BAM_CINS ->
      bam_cigar_oplen w <= MaxInsertionBases a)
  /\ (MaxInsertionBases a = 0
      \/ exists w, In w (cigar_words a) /\ bam_cigar_op w = BAM_CINS
                   /\ bam_cigar_oplen w = MaxInsertionBases a).
Proof.
  assert (E : MaxInsertionBases a = length_max (is_kind BAM_CINS) (cigar_words a))
    by (apply (max_loop (fun w => is_chr w "I")), is_chr_I).
  rewrite E.
  destruct (length_max_bounds (is_kind BAM_CINS) _ (cigar_words_range a))
    as (H0 & Hub & Hat).
  split; [exact H0|]. split.
  - intros w Hin Hop. apply Hub; [exact Hin|]. apply Z.eqb_eq, Hop.
  - destruct Hat as [Hz | (w & Hin & Hf & Heq)]; [left; exact Hz|].
    right. exists w. split; [exact Hin|]. split; [apply Z.eqb_eq, Hf | exact Heq].
Qed.

Lemma MaxInsertionBases_bound_witness : 3 <= MaxInsertionBases gapped_read.
Proof.
  apply (proj1 (proj2 (MaxInsertionBases_bound gapped_read))
               (bam_cigar_gen 3 BAM_CINS)).
  - vm_compute. do 3 right. left. reflexivity.
  - reflexivity.
Defined.

(** X11. [MaxDeletionBases] is an upper bound of the length of every
    deletion of the cigar array; it is the length of one of them, or 0
    when there is none. *)
Theorem MaxDeletionBases_bound (a : bam1_t) :
  0 <= MaxDeletionBases a
  /\ (forall w, In w (cigar_words a) -> bam_cigar_op w = BAM_CDEL ->
      bam_cigar_oplen w <= MaxDeletionBases a)
  /\ (MaxDeletionBases a = 0
      \/ exists w, In w (cigar_words a) /\ bam_cigar_op w = BAM_CDEL
                   /\ bam_cigar_oplen w = MaxDeletionBases a).
Proof.
  assert (E : MaxDeletionBases a = length_max (is_kind BAM_CDEL) (cigar_words a))
    by (apply (max_loop (fun w => is_chr w "D")), is_chr_D).
  rewrite E.
  destruct (length_max_bounds (is_kind BAM_CDEL) _ (cigar_words_range a))
    as (H0 & Hub & Hat).
  split; [exact H0|]. split.
  - intros w Hin Hop. apply Hub; [exact Hin|]. apply Z.eqb_eq, Hop.
  - destruct Hat as [Hz | (w & Hin & Hf & Heq)]; [left; exact Hz|].
    right. exists w. split; [exact Hin|]. split; [apply Z.eqb_eq, Hf | exact Heq].
Qed.

Lemma MaxDeletionBases_bound_witness : 2 <= MaxDeletionBases gapped_read.
Proof.
  apply (proj1 (proj2 (MaxDeletionBases_bound gapped_read))
               (bam_cigar_gen 2 BAM_CDEL)).
  - vm_compute. do 5 right. left. reflexivity.
  - reflexivity.
Defined.

Lemma uint32_range z : Int.in_uint32 (Int.uint32 z).
Proof.
  unfold Int.in_uint32, Int.uint32. apply Z.mod_pos_bound. lia.
Qed.

Lemma uint32_id z : Int.in_uint32 z -> Int.uint32 z = z.
Proof. unfold Int.in_uint32, Int.uint32. intros H. apply Z.mod_small, H. Qed.

Lemma uint32_add_l x y : Int.uint32 (Int.uint32 x + y) = Int.uint32 (x + y).
Proof. unfold Int.uint32. apply Z.add_mod_idemp_l. lia. Qed.

Lemma length_sum_none f ws :
  forallb (fun w => negb (f w)) ws = true -> length_sum f ws = 0.
Proof.
  induction ws as [|w ws IH]; [reflexivity|].
  cbn [forallb]. intros H. apply andb_prop in H. destruct H as [Hw Hws].
  apply negb_true_iff in Hw. rewrite length_sum_cons, Hw. apply IH, Hws.
Qed.

(** The counting loop on [uint32_t]. *)
Lemma scan_count_u (t : Z -> bool) ws :
  forall p,
    Int.in_uint32 p ->
    scan (fun w dmax =>
            if t w then Continue (Int.uint32 (dmax + bam_cigar_oplen w))
            else Continue dmax) ws p
    = Int.uint32 (p + length_sum t ws).
Proof.
  induction ws as [|w ws IH]; intros p Hp; cbn [scan].
  - cbn. rewrite Z.add_0_r. symmetry. apply uint32_id, Hp.
  - rewrite length_sum_cons. destruct (t w).
    + rewrite IH by apply uint32_range.
      rewrite uint32_add_l. f_equal. lia.
    + apply IH, Hp.
Qed.

(** X12. [NumMatchBases] is the sum, modulo 2^32, of the lengths of the
    [M] operations of the cigar array, and of no other kind: it is their
    sum when that is below 2^32, and 0 when the array has no [M]. *)
Theorem NumMatchBases_sum (a : bam1_t) :
  NumMatchBases a
  = Int.uint32 (length_sum (is_kind BAM_CMATCH) (cigar_words a))
  /\ Int.in_uint32 (NumMatchBases a)
  /\ (length_sum (is_kind BAM_CMATCH) (cigar_words a) < 2 ^ 32 ->
      NumMatchBases a = length_sum (is_kind BAM_CMATCH) (cigar_words a))
  /\ (forallb (fun w => negb (is_kind BAM_CMATCH w)) (cigar_words a) = true ->
      NumMatchBases a = 0).
Proof.
  assert (E : NumMatchBases a
              = Int.uint32 (length_sum (is_kind BAM_CMATCH) (cigar_words a))).
  { unfold NumMatchBases, cigar_words. cbv zeta.
    rewrite (for_up_scan
               (fun w dmax =>
                  if is_chr w "M"
                  then Continue (Int.uint32 (dmax + bam_cigar_oplen w))
                  else Continue dmax)).
    rewrite (scan_count_u (fun w => is_chr w "M")) by (unfold Int.in_uint32; lia).
    cbn [Z.add]. f_equal. apply length_sum_ext, is_chr_M. }
  pose proof (length_sum_nonneg (is_kind BAM_CMATCH) _ (cigar_words_range a)) as H0.
  split; [exact E|]. rewrite E.
  split; [apply uint32_range|]. split.
  - intros Hlt. apply uint32_id. unfold Int.in_uint32. lia.
  - intros Hnone. rewrite (length_sum_none _ _ Hnone). reflexivity.
Qed.

Lemma NumMatchBases_sum_witness : NumMatchBases gapped_read = 57.
Proof.
  rewrite (proj1 (proj2 (proj2 (NumMatchBases_sum gapped_read))));
    vm_compute; reflexivity.
Defined.

(** ** Clips at the ends of the cigar array *)

Lemma take_while_app_all {A : Type} (f : A -> bool) pre l :
  forallb f pre = true -> take_while f (pre ++ l) = pre ++ take_while f l.
Proof.
  induction pre as [|x pre IH]; cbn; [reflexivity|].
  intros H. apply andb_prop in H. destruct H as [Hx Hpre].
  rewrite Hx, IH by exact Hpre. reflexivity.
Qed.

Lemma take_while_all {A : Type} (f : A -> bool) l :
  forallb f l = true -> take_while f l = l.
Proof.
  intros H. rewrite <- (app_nil_r l) at 1.
  rewrite take_while_app_all by exact H. apply app_nil_r.
Qed.

Lemma forallb_rev {A : Type} (f : A -> bool) l :
  forallb f (rev l) = forallb f l.
Proof.
  induction l as [|x l IH]; [reflexivity|].
  cbn [rev forallb]. rewrite forallb_app, IH. cbn. rewrite andb_true_r.
  apply andb_comm.
Qed.

(** The leading run of clips of an array whose clips stand at its ends. *)
Lemma take_while_ends pre mid post :
  forallb is_clip pre = true ->
  forallb (fun w => negb (is_clip w)) mid = true ->
  mid <> [] ->
  take_while is_clip (pre ++ mid ++ post) = pre.
Proof.
  intros Hpre Hmid Hne. rewrite take_while_app_all by exact Hpre.
  destruct mid as [|m mid]; [contradiction|].
  cbn [forallb] in Hmid. apply andb_prop in Hmid. destruct Hmid as [Hm _].
  apply negb_true_iff in Hm. cbn [app take_while]. rewrite Hm.
  apply app_nil_r.
Qed.

(** X13. When the clips of the cigar array stand only at its ends, around
    at least one operation that is not a clip, and the clip lengths
    together stay below 2^31: [AlignmentPosition] is the total of the
    leading clips, [AlignmentPositionReverse] the total of the trailing
    clips, the two add up to [NumClip], and the span from
    [AlignmentPosition] to [AlignmentEndPosition] is the query length less
    [NumClip]. *)
Theorem clips_at_ends (a : bam1_t) (pre mid post : list Z) :
  cigar_words a = pre ++ mid ++ post ->
  forallb is_clip pre = true ->
  forallb is_clip post = true ->
  forallb (fun w => negb (is_clip w)) mid = true ->
  mid <> [] ->
  length_sum is_clip (cigar_words a) < 2 ^ 31 ->
  0 <= Length a < 2 ^ 31 ->
  AlignmentPosition a = length_sum is_clip pre
  /\ AlignmentPositionReverse a = length_sum is_clip post
  /\ AlignmentPosition a + AlignmentPositionReverse a = NumClip a
  /\ AlignmentEndPosition a - AlignmentPosition a = Length a - NumClip a.
Proof.
  intros Hws Hpre Hpost Hmid Hne Hsum Hl.
  pose proof (cigar_words_range a) as Hrange. rewrite Hws in Hrange.
  apply Forall_app in Hrange. destruct Hrange as [Rpre Rrest].
  apply Forall_app in Rrest. destruct Rrest as [Rmid Rpost].
  pose proof (length_sum_nonneg is_clip pre Rpre) as Npre.
  pose proof (length_sum_nonneg is_clip post Rpost) as Npost.
  assert (Etot : length_sum is_clip (cigar_words a)
                 = length_sum is_clip pre + length_sum is_clip post).
  { rewrite Hws, !length_sum_app, (length_sum_none is_clip mid Hmid). lia. }
  assert (Eap : AlignmentPosition a = length_sum is_clip pre).
  { rewrite AlignmentPosition_run, Hws, take_while_ends by assumption.
    apply int32_id. unfold Int.in_int32. lia. }
  assert (Eapr : AlignmentPositionReverse a = length_sum is_clip post).
  { rewrite AlignmentPositionReverse_run, Hws, !rev_app_distr, <- app_assoc.
    rewrite take_while_ends.
    - rewrite length_sum_rev. apply int32_id. unfold Int.in_int32. lia.
    - rewrite forallb_rev. exact Hpost.
    - rewrite forallb_rev. exact Hmid.
    - intros E. apply (f_equal (@rev Z)) in E. rewrite rev_involutive in E.
      exact (Hne E). }
  assert (Enum : NumClip a
                 = length_sum is_clip pre + length_sum is_clip post).
  { rewrite NumClip_sum, Etot. apply int32_id. unfold Int.in_int32. lia. }
  split; [exact Eap|]. split; [exact Eapr|]. split; [lia|].
  rewrite AlignmentEndPosition_sub, Eapr, Eap, Enum. unfold Int.sub.
  rewrite int32_id by (unfold Int.in_int32; lia). lia.
Qed.

Lemma clips_at_ends_witness :
  AlignmentPosition gapped_read = 15
  /\ AlignmentPositionReverse gapped_read = 10
  /\ AlignmentPosition gapped_read + AlignmentPositionReverse gapped_read
     = NumClip gapped_read
  /\ AlignmentEndPosition gapped_read - AlignmentPosition gapped_read
     = Length gapped_read - NumClip gapped_read.
Proof.
  apply (clips_at_ends gapped_read
           [bam_cigar_gen 5 BAM_CHARD_CLIP; bam_cigar_gen 10 BAM_CSOFT_CLIP]
           [bam_cigar_gen 20 BAM_CMATCH; bam_cigar_gen 3 BAM_CINS;
            bam_cigar_gen 7 BAM_CMATCH; bam_cigar_gen 2 BAM_CDEL;
            bam_cigar_gen 30 BAM_CMATCH]
           [bam_cigar_gen 10 BAM_CSOFT_CLIP]);
    try reflexivity.
  - discriminate.
  - cbn. lia.
Defined.

(** X14. With the clip lengths together below 2^31, the two start
    offsets lie between 0 and [NumClip]; with a query length that is not
    negative, the two end offsets are at most the query length.  When
    every operation of the array is a clip, both scans run through the
    whole array and each start offset is [NumClip]. *)
Theorem offsets_within_clips (a : bam1_t) :
  length_sum is_clip (cigar_words a) < 2 ^ 31 ->
  0 <= Length a < 2 ^ 31 ->
  0 <= AlignmentPosition a <= NumClip a
  /\ 0 <= AlignmentPositionReverse a <= NumClip a
  /\ AlignmentEndPosition a <= Length a
  /\ AlignmentEndPositionReverse a <= Length a
  /\ (forallb is_clip (cigar_words a) = true ->
      AlignmentPosition a = NumClip a
      /\ AlignmentPositionReverse a = NumClip a).
Proof.
  intros Hsum Hl.
  pose proof (cigar_words_range a) as Hrange.
  assert (Hrev : Forall Int.in_uint32 (rev (cigar_words a))).
  { apply Forall_forall. intros w Hw. apply in_rev in Hw.
    revert w Hw. apply Forall_forall, Hrange. }
  pose proof (clip_run_le _ Hrange) as Hf.
  pose proof (clip_run_le _ Hrev) as Hb. rewrite length_sum_rev in Hb.
  pose proof (length_sum_nonneg is_clip _ Hrange) as Hn.
  rewrite AlignmentEndPosition_sub, AlignmentEndPositionReverse_sub.
  rewrite AlignmentPosition_run, AlignmentPositionReverse_run, NumClip_sum.
  unfold Int.sub.
  rewrite !(int32_id (length_sum _ _)) by (unfold Int.in_int32; lia).
  rewrite !int32_id by (unfold Int.in_int32; lia).
  repeat split; try lia.
  - rewrite take_while_all by assumption. reflexivity.
  - rewrite take_while_all by (rewrite forallb_rev; assumption).
    apply length_sum_rev.
Qed.

Lemma offsets_within_clips_witness :
  0 <= AlignmentPosition gapped_read <= NumClip gapped_read.
Proof.
  apply offsets_within_clips; [vm_compute; reflexivity | cbn; lia].
Defined.

(** X15. On a record whose cigar array is empty, the clip counts, the
    start offsets and the maxima are 0, the end offsets are the query
    length, and [CigarString] and [GetCigar] are empty. *)
Theorem empty_cigar (a : bam1_t) :
  n_cigar (core a) = 0 ->
  Int.in_int32 (Length a) ->
  (NumSoftClip a = 0 /\ NumHardClip a = 0 /\ NumClip a = 0)
  /\ (AlignmentPosition a = 0 /\ AlignmentPositionReverse a = 0)
  /\ (AlignmentEndPosition a = Length a
      /\ AlignmentEndPositionReverse a = Length a)
  /\ (MaxInsertionBases a = 0 /\ MaxDeletionBases a = 0
      /\ NumMatchBases a = 0)
  /\ CigarString a = ""%string
  /\ GetCigar a = [] /\ GetReverseCigar a = [].
Proof.
  intros Hn Hl.
  unfold NumSoftClip, NumHardClip, NumClip, AlignmentPosition,
    AlignmentPositionReverse, AlignmentEndPosition,
    AlignmentEndPositionReverse, MaxInsertionBases, MaxDeletionBases,
    NumMatchBases, CigarString, GetCigar, GetReverseCigar, ncigar.
  rewrite Hn. cbn [Z.to_nat for_up for_down].
  unfold Int.sub. rewrite Z.sub_0_r, int32_id by exact Hl.
  repeat split.
Qed.

Lemma empty_cigar_witness : CigarString named_read = ""%string.
Proof.
  destruct (empty_cigar named_read) as (_ & _ & _ & _ & H & _).
  - reflexivity.
  - unfold Int.in_int32. cbn. lia.
  - exact H.
Defined.

(** ** Qualities *)

Lemma string_set_end pre x r c :
  string_set (pre ++ String x r)%string (String.length pre) c
  = (pre ++ String c r)%string.
Proof.
  induction pre as [|y pre IH]; cbn; [reflexivity|].
  rewrite IH. reflexivity.
Qed.

Lemma string_app_length (s t : string) :
  String.length (s ++ t)%string = (String.length s + String.length t)%nat.
Proof. induction s as [|x s IH]; cbn; [reflexivity | now rewrite IH]. Qed.



(** The loop of [Qualities] overwrites the blanks one by one. *)
Lemma fill_loop (g : nat -> ascii) n :
  forall i pre,
    String.length pre = i ->
    for_up n i (fun i out => Continue (string_set out i (g i)))
           (pre ++ string_fill n " ")%string
    = (pre ++ string_of_list_ascii (map g (seq i n)))%string.
Proof.
  induction n as [|n IH]; intros i pre Hi; cbn [for_up seq map string_fill];
    [reflexivity|].
  rewrite <- Hi at 2. rewrite string_set_end.
  change (pre ++ String (g i) (string_fill n " "))%string
    with (pre ++ (String (g i) "" ++ string_fill n " "))%string.
  rewrite <- string_app_assoc, IH.
  - rewrite string_app_assoc. reflexivity.
  - rewrite string_app_length, Hi. cbn. lia.
Qed.

Lemma Qualities_text a :
  Qualities a = string_of_list_ascii (map phred_char (quals a)).
Proof.
  unfold Qualities, quals. cbv zeta.
  pose proof (fill_loop (fun i => phred_char (nth i (bam_get_qual a) x00))
                        (Z.to_nat (l_qseq (core a))) 0 ""%string eq_refl) as H.
  cbn [append] in H. rewrite H, map_map. reflexivity.
Qed.




(** ** What the tag operations leave in place *)

Lemma agree_firstn k n d :
  (k <= n)%nat -> agree k (firstn n d) d.
Proof.
  intros Hk j Hj. rewrite nth_firstn.
  replace (j <? n)%nat with true by (symmetry; apply Nat.ltb_lt; lia).
  reflexivity.
Qed.

Lemma agree_app k d e :
  (k <= List.length d)%nat -> agree k (d ++ e) d.
Proof.
  intros Hk j Hj. apply app_nth1. lia.
Qed.

Lemma regions_size_parts a :
  well_formed a ->
  (Z.to_nat (l_qname (core a)) + 4 * Z.to_nat (n_cigar (core a))
   <= Z.to_nat (regions_size a))%nat
  /\ (Z.to_nat (Z.shiftl (n_cigar (core a)) 2 + l_qname (core a)
                + Z.shiftr (l_qseq (core a) + 1) 1)
      + Z.to_nat (l_qseq (core a))
      = Z.to_nat (regions_size a))%nat
  /\ (Z.to_nat (regions_size a) <= List.length (data a))%nat.
Proof.
  intros (Hn & Hq & Hl & Hlen & Hfit).
  pose proof (keep_regions a) as Hk.
  rewrite packed_bases_size, Z.shiftl_mul_pow2 in * by lia.
  unfold regions_size in *.
  pose proof (Z.div_pos (l_qseq (core a)) 2).
  pose proof (Z.mod_pos_bound (l_qseq (core a)) 2).
  change (2 ^ 2) with 4 in *. lia.
Qed.

(** The cigar words are read from the core sizes and from the bytes of
    the name and cigar regions only. *)
Lemma cigar_words_agree a a' :
  core a' = core a ->
  agree (Z.to_nat (l_qname (core a)) + 4 * Z.to_nat (n_cigar (core a)))
        (data a') (data a) ->
  cigar_words a' = cigar_words a.
Proof.
  intros Hc Hag. unfold cigar_words, ncigar, bam_get_cigar. rewrite Hc.
  apply map_ext_in. intros i Hi. apply in_seq in Hi.
  unfold word_at, Int.le32. rewrite !nth_skipn.
  rewrite !Hag by lia. reflexivity.
Qed.

(** The quality bytes are read from the core sizes and from the bytes of
    the regions before the tags only. *)
Lemma quals_agree a a' :
  well_formed a ->
  core a' = core a ->
  agree (Z.to_nat (regions_size a)) (data a') (data a) ->
  quals a' = quals a.
Proof.
  intros Hwf Hc Hag. unfold quals, bam_get_qual. rewrite Hc.
  destruct (regions_size_parts a Hwf) as (_ & Hoff & _).
  apply map_ext_in. intros i Hi. apply in_seq in Hi.
  rewrite !nth_skipn. apply Hag. lia.
Qed.

Lemma same_alignment_agree a a' :
  well_formed a ->
  core a' = core a ->
  agree (Z.to_nat (regions_size a)) (data a') (data a) ->
  same_alignment a a'.
Proof.
  intros Hwf Hc Hag.
  destruct (regions_size_parts a Hwf) as (Hcig & _ & _).
  assert (Hw : cigar_words a' = cigar_words a).
  { apply cigar_words_agree; [exact Hc|].
    intros j Hj. apply Hag. lia. }
  assert (Hq : quals a' = quals a) by (apply quals_agree; assumption).
  unfold same_alignment.
  rewrite !GetCigar_words, !CigarString_words, !AlignmentEndPosition_sub,
    !AlignmentPositionReverse_run, !AlignmentPosition_run, !NumClip_sum,
    !Qualities_text, Hw, Hq.
  unfold Length. rewrite Hc.
  repeat split.
  unfold NumMatchBases. fold (ncigar a') (ncigar a).
  cbv zeta.
  rewrite !(for_up_scan
              (fun w dmax =>
                 if is_chr w "M"
                 then Continue (Int.uint32 (dmax + bam_cigar_oplen w))
                 else Continue dmax)).
  fold (cigar_words a') (cigar_words a). rewrite Hw. reflexivity.
Qed.

Lemma realloc_length d n : List.length (realloc d n) = n.
Proof.
  unfold realloc. rewrite length_app, length_firstn, repeat_length. lia.
Qed.

Lemma realloc_same d n : n = List.length d -> realloc d n = d.
Proof.
  intros ->. unfold realloc. rewrite firstn_all, Nat.sub_diag. apply app_nil_r.
Qed.

Lemma well_formed_RemoveAllTags a :
  well_formed a -> well_formed (RemoveAllTags a).
Proof.
  intros Hwf. pose proof (regions_size_nonneg a Hwf) as Hnn.
  destruct Hwf as (Hn & Hq & Hl & Hlen & Hfit).
  unfold well_formed, RemoveAllTags. cbn [core l_data data].
  rewrite keep_regions, realloc_length.
  change (regions_size {| core := core a; l_data := _; m_data := _; data := _ |})
    with (regions_size a).
  rewrite int32_id by (unfold Int.in_int32; lia).
  repeat split; lia.
Qed.

(** X17. [RemoveAllTags] keeps a well-formed record well-formed and leaves
    the core fields, the cigar, the clip arithmetic and the qualities as
    they were; the capacity becomes the length, and a second call changes
    nothing. *)
Theorem RemoveAllTags_keeps_alignment (a : bam1_t) :
  well_formed a ->
  well_formed (RemoveAllTags a)
  /\ same_alignment a (RemoveAllTags a)
  /\ m_data (RemoveAllTags a) = l_data (RemoveAllTags a)
  /\ RemoveAllTags (RemoveAllTags a) = RemoveAllTags a.
Proof.
  intros Hwf.
  split; [apply well_formed_RemoveAllTags, Hwf|].
  destruct (regions_size_parts a Hwf) as (_ & _ & Hfit).
  split.
  - apply same_alignment_agree; [exact Hwf | reflexivity |].
    unfold RemoveAllTags. cbn [data]. rewrite keep_regions.
    rewrite realloc_shrink by exact Hfit.
    apply agree_firstn. lia.
  - split; [reflexivity|].
    unfold RemoveAllTags. cbn [core data l_data m_data].
    rewrite realloc_same by (symmetry; apply realloc_length).
    reflexivity.
Qed.

Lemma RemoveAllTags_keeps_alignment_witness :
  CigarString (RemoveAllTags tagged_read) = CigarString tagged_read.
Proof.
  destruct (RemoveAllTags_keeps_alignment tagged_read well_formed_tagged_read)
    as (_ & Hsame & _).
  apply Hsame.
Defined.

Lemma well_formed_append a tag type len d :
  well_formed a ->
  0 <= len -> (Z.to_nat len <= List.length d)%nat ->
  l_data a + 3 + len < 2 ^ 31 ->
  well_formed (bam_aux_append a tag type len d)
  /\ l_data (bam_aux_append a tag type len d) = l_data a + 3 + len
  /\ data (bam_aux_append a tag type len d)
     = data a ++ [key_byte tag 0; key_byte tag 1; type]
              ++ firstn (Z.to_nat len) d.
Proof.
  intros Hwf Hlen Hd Hfit.
  pose proof (regions_size_nonneg a Hwf) as Hnn.
  destruct Hwf as (Hn & Hq & Hl & Hl_data & Hr).
  assert (Hdata : data (bam_aux_append a tag type len d)
                  = data a ++ [key_byte tag 0; key_byte tag 1; type]
                           ++ firstn (Z.to_nat len) d).
  { unfold bam_aux_append. cbn [data].
    rewrite realloc_same by lia. reflexivity. }
  assert (Hl' : l_data (bam_aux_append a tag type len d) = l_data a + 3 + len).
  { unfold bam_aux_append. cbn [l_data].
    apply int32_id. unfold Int.in_int32. lia. }
  split; [|split; assumption].
  unfold well_formed. rewrite Hl', Hdata.
  change (core (bam_aux_append a tag type len d)) with (core a).
  change (regions_size (bam_aux_append a tag type len d))
    with (regions_size a).
  rewrite !length_app, length_firstn. cbn [List.length].
  repeat split; lia.
Qed.

(** X18. [AddIntTag] keeps a well-formed record well-formed, grows the
    buffer by the 7 bytes of the new tag, and leaves the core fields, the
    cigar, the clip arithmetic and the qualities as they were. *)
Theorem AddIntTag_keeps_alignment (a : bam1_t) (tag : string) (v : Z) :
  well_formed a ->
  l_data a + 7 < 2 ^ 31 ->
  well_formed (AddIntTag a tag v)
  /\ l_data (AddIntTag a tag v) = l_data a + 7
  /\ same_alignment a (AddIntTag a tag v).
Proof.
  intros Hwf Hfit.
  destruct (well_formed_append a tag (byte_of_ascii "i") 4 (Int.le32_bytes v))
    as (Hwf' & Hl & Hd); try assumption; try lia; [cbn; lia|].
  fold (AddIntTag a tag v) in *.
  split; [exact Hwf'|]. split; [lia|].
  apply same_alignment_agree; [exact Hwf | reflexivity |].
  rewrite Hd. apply agree_app.
  apply (regions_size_parts a Hwf).
Qed.

Lemma AddIntTag_keeps_alignment_witness :
  Qualities (AddIntTag tagged_read "XP" 7) = Qualities tagged_read.
Proof.
  destruct (AddIntTag_keeps_alignment tagged_read "XP" 7
              well_formed_tagged_read) as (_ & _ & Hsame).
  - vm_compute. reflexivity.
  - apply Hsame.
Defined.

(** ** Tag lookup *)

(** The integer of a well-sized tag does not depend on what follows it. *)
(** Case analysis on a payload whose length [Hok] fixes. *)
Ltac split_payload p Hok :=
  destruct p as [|? p]; cbn [List.length] in Hok;
  [ try lia | first [ lia | split_payload p Hok ] ].

Lemma bam_aux2i_prefix e rest :
  payload_ok e = true ->
  bam_aux2i (tag_type e :: tag_payload e ++ rest) = tag_int e.
Proof.
  destruct e as [k0 k1 t p]. unfold tag_int, payload_ok.
  cbn [tag_type tag_payload].
  destruct t; try reflexivity;
    (* the six integer types: the payload has 1, 2 or 4 bytes *)
    cbn - [Z.eqb Int.le32 List.length Z.of_nat];
    intros Hok; apply Z.eqb_eq in Hok;
    split_payload p Hok; reflexivity.
Qed.

Lemma find_app {A : Type} (f : A -> bool) l1 l2 :
  find f (l1 ++ l2)
  = match find f l1 with Some x => Some x | None => find f l2 end.
Proof.
  induction l1 as [|x l1 IH]; cbn; [reflexivity|].
  destruct (f x); [reflexivity | exact IH].
Qed.

Lemma find_none_existsb {A : Type} (f : A -> bool) l :
  existsb f l = false -> find f l = None.
Proof.
  induction l as [|x l IH]; cbn; [reflexivity|].
  destruct (f x); cbn; [discriminate | exact IH].
Qed.

(** The scan over well-sized tags stops at the first tag with the key,
    and goes on with what follows the tags when there is none. *)
Lemma read_tags tag es rest :
  forallb payload_ok es = true ->
  match aux_scan (key16 (key_byte tag 0) (key_byte tag 1))
                 (encode_tags es ++ rest) with
  | Aborts => Aborts
  | Returns None => Returns 0
  | Returns (Some p) => Returns (bam_aux2i p)
  end
  = match first_tag tag es with
    | Some e => Returns (tag_int e)
    | None =>
        match aux_scan (key16 (key_byte tag 0) (key_byte tag 1)) rest with
        | Aborts => Aborts
        | Returns None => Returns 0
        | Returns (Some p) => Returns (bam_aux2i p)
        end
    end.
Proof.
  unfold first_tag.
  induction es as [|e es IH]; cbn [forallb find]; intros Hok; [reflexivity|].
  apply andb_prop in Hok. destruct Hok as [He Hes].
  unfold encode_tags. cbn [flat_map]. rewrite <- app_assoc.
  fold (encode_tags es).
  pose proof (key16_eqb tag e) as Hkey.
  destruct (has_key tag e).
  - apply Z.eqb_eq in Hkey. unfold encode_tag. cbn [app].
    rewrite (aux_scan_found _ _ _ _ Hkey).
    rewrite bam_aux2i_prefix by exact He. reflexivity.
  - rewrite aux_scan_other by assumption. apply IH, Hes.
Qed.

Lemma GetIntTag_tags a tag es :
  tags_are a es ->
  GetIntTag a tag
  = Returns match first_tag tag es with Some e => tag_int e | None => 0 end.
Proof.
  intros [Haux Hok]. unfold GetIntTag, bam_aux_get.
  rewrite Haux, <- (app_nil_r (encode_tags es)).
  rewrite (read_tags tag es [] Hok). simp aux_scan.
  destruct (first_tag tag es); reflexivity.
Qed.

Lemma payload_ok_int_tag tag v : payload_ok (int_tag tag v) = true.
Proof. reflexivity. Qed.

Lemma tag_int_int_tag tag v : Int.in_int32 v -> tag_int (int_tag tag v) = v.
Proof.
  intros Hv. unfold tag_int, int_tag. cbn [tag_type tag_payload].
  rewrite <- (app_nil_r (Int.le32_bytes v)). apply bam_aux2i_int, Hv.
Qed.

Lemma tags_are_AddIntTag a tag v es :
  well_formed a ->
  l_data a + 7 < 2 ^ 31 ->
  tags_are a es ->
  tags_are (AddIntTag a tag v) (es ++ [int_tag tag v]).
Proof.
  intros Hwf Hfit [Haux Hok]. split.
  - unfold AddIntTag. rewrite bam_get_aux_append; try assumption; try lia.
    + rewrite Haux. unfold encode_tags. rewrite flat_map_app. cbn [flat_map].
      rewrite app_nil_r. reflexivity.
    + cbn. lia.
  - rewrite forallb_app, Hok. reflexivity.
Qed.

Lemma tags_are_RemoveAllTags a :
  well_formed a -> tags_are (RemoveAllTags a) [].
Proof.
  intros Hwf. split; [|reflexivity].
  pose proof (well_formed_RemoveAllTags a Hwf) as Hwf'.
  rewrite (bam_get_aux_all _ Hwf').
  apply skipn_all2.
  destruct Hwf' as (_ & _ & _ & Hlen & _).
  change (regions_size (RemoveAllTags a)) with (regions_size a).
  assert (l_data (RemoveAllTags a) = regions_size a) as Hl.
  { unfold RemoveAllTags. cbn [l_data]. rewrite keep_regions.
    pose proof (regions_size_nonneg a Hwf).
    destruct Hwf as (_ & _ & _ & _ & Hr).
    apply int32_id. unfold Int.in_int32. lia. }
  lia.
Qed.

(** X19. On a record whose tags are well-sized, [GetIntTag] returns and
    never aborts: it reads the first tag that has the key, whatever tags
    follow it, and gives 0 when no tag has the key. *)
Theorem GetIntTag_first_match (a : bam1_t) (tag : string) (es : list aux_tag) :
  tags_are a es ->
  GetIntTag a tag
  = Returns match first_tag tag es with Some e => tag_int e | None => 0 end.
Proof. apply GetIntTag_tags. Qed.

Lemma GetIntTag_first_match_witness : GetIntTag tagged_read "NM" = Returns 2.
Proof.
  rewrite (GetIntTag_first_match tagged_read "NM"
             [ {| tag_k0 := byte_of_ascii "N"; tag_k1 := byte_of_ascii "M";
                  tag_type := byte_of_ascii "i";
                  tag_payload := Int.le32_bytes 2 |};
               {| tag_k0 := byte_of_ascii "R"; tag_k1 := byte_of_ascii "G";
                  tag_type := byte_of_ascii "Z";
                  tag_payload := [byte_of_ascii "g"; byte_of_ascii "1"; x00] |} ]).
  - reflexivity.
  - split; vm_compute; reflexivity.
Defined.

(** X20. [AddIntTag] does not replace a tag: after two calls with the same
    key on a record that had no such tag, [GetIntTag] returns the value of
    the first call. *)
Theorem AddIntTag_twice_first_wins
        (a : bam1_t) (tag : string) (v1 v2 : Z) (es : list aux_tag) :
  well_formed a ->
  l_data a + 14 < 2 ^ 31 ->
  tags_are a es ->
  existsb (has_key tag) es = false ->
  Int.in_int32 v1 ->
  GetIntTag (AddIntTag (AddIntTag a tag v1) tag v2) tag = Returns v1.
Proof.
  intros Hwf Hfit Htags Hkey Hv1.
  destruct (well_formed_append a tag (byte_of_ascii "i") 4 (Int.le32_bytes v1))
    as (Hwf1 & Hl1 & _); try assumption; try lia; [cbn; lia|].
  fold (AddIntTag a tag v1) in *.
  pose proof (tags_are_AddIntTag a tag v1 es Hwf ltac:(lia) Htags) as Ht1.
  pose proof (tags_are_AddIntTag _ tag v2 _ Hwf1 ltac:(lia) Ht1) as Ht2.
  rewrite (GetIntTag_tags _ tag _ Ht2). unfold first_tag.
  rewrite !find_app, (find_none_existsb _ _ Hkey). cbn [find].
  assert (Hk : has_key tag (int_tag tag v1) = true).
  { unfold has_key, int_tag. cbn [tag_k0 tag_k1].
    rewrite !(Byte.byte_dec_lb eq_refl). reflexivity. }
  rewrite Hk, tag_int_int_tag by exact Hv1. reflexivity.
Qed.

Lemma AddIntTag_twice_first_wins_witness :
  GetIntTag (AddIntTag (AddIntTag clipped_read "XP" 7) "XP" 9) "XP" = Returns 7.
Proof.
  apply (AddIntTag_twice_first_wins clipped_read "XP" 7 9 []).
  - eval_well_formed.
  - vm_compute. reflexivity.
  - split; vm_compute; reflexivity.
  - reflexivity.
  - unfold Int.in_int32. lia.
Defined.

(** X21. [AddIntTag] with one key does not change what [GetIntTag] returns
    for a different key. *)
Theorem AddIntTag_other_key
        (a : bam1_t) (tag tag' : string) (v : Z) (es : list aux_tag) :
  well_formed a ->
  l_data a + 7 < 2 ^ 31 ->
  tags_are a es ->
  has_key tag (int_tag tag' v) = false ->
  GetIntTag (AddIntTag a tag' v) tag = GetIntTag a tag.
Proof.
  intros Hwf Hfit Htags Hother.
  pose proof (tags_are_AddIntTag a tag' v es Hwf Hfit Htags) as Ht1.
  rewrite (GetIntTag_tags _ tag _ Ht1), (GetIntTag_tags _ tag _ Htags).
  unfold first_tag. rewrite find_app. cbn [find]. rewrite Hother.
  destruct (find (has_key tag) es); reflexivity.
Qed.

Lemma AddIntTag_other_key_witness :
  GetIntTag (AddIntTag tagged_read "XP" 7) "NM" = Returns 2.
Proof.
  rewrite (AddIntTag_other_key tagged_read "NM" "XP" 7
             [ {| tag_k0 := byte_of_ascii "N"; tag_k1 := byte_of_ascii "M";
                  tag_type := byte_of_ascii "i";
                  tag_payload := Int.le32_bytes 2 |};
               {| tag_k0 := byte_of_ascii "R"; tag_k1 := byte_of_ascii "G";
                  tag_type := byte_of_ascii "Z";
                  tag_payload := [byte_of_ascii "g"; byte_of_ascii "1"; x00] |} ]).
  - reflexivity.
  - eval_well_formed.
  - vm_compute. reflexivity.
  - split; vm_compute; reflexivity.
  - reflexivity.
Defined.

(** X22. After [RemoveAllTags], [GetIntTag] returns 0 for every key, and a
    tag added afterwards is found again. *)
Theorem RemoveAllTags_then_tags (a : bam1_t) (tag : string) (v : Z) :
  well_formed a ->
  regions_size a + 7 < 2 ^ 31 ->
  Int.in_int32 v ->
  GetIntTag (RemoveAllTags a) tag = Returns 0
  /\ GetIntTag (AddIntTag (RemoveAllTags a) tag v) tag = Returns v.
Proof.
  intros Hwf Hfit Hv.
  pose proof (tags_are_RemoveAllTags a Hwf) as Ht0.
  pose proof (well_formed_RemoveAllTags a Hwf) as Hwf0.
  assert (Hl : l_data (RemoveAllTags a) = regions_size a).
  { unfold RemoveAllTags. cbn [l_data]. rewrite keep_regions.
    pose proof (regions_size_nonneg a Hwf).
    apply int32_id. unfold Int.in_int32. lia. }
  split.
  - rewrite (GetIntTag_tags _ tag _ Ht0). reflexivity.
  - pose proof (tags_are_AddIntTag _ tag v _ Hwf0 ltac:(lia) Ht0) as Ht1.
    rewrite (GetIntTag_tags _ tag _ Ht1). cbn [app first_tag find].
    assert (Hk : has_key tag (int_tag tag v) = true).
    { unfold has_key, int_tag. cbn [tag_k0 tag_k1].
      rewrite !(Byte.byte_dec_lb eq_refl). reflexivity. }
    rewrite Hk, tag_int_int_tag by exact Hv. reflexivity.
Qed.

Lemma RemoveAllTags_then_tags_witness :
  GetIntTag (RemoveAllTags tagged_read) "NM" = Returns 0
  /\ GetIntTag (AddIntTag (RemoveAllTags tagged_read) "NM" 5) "NM" = Returns 5.
Proof.
  apply RemoveAllTags_then_tags.
  - eval_well_formed.
  - vm_compute. reflexivity.
  - unfold Int.in_int32. lia.
Defined.

(** X23. [RemoveTag] with a key that no tag has returns the record as it
    is, without calling [bam_aux_del]. *)
Theorem RemoveTag_absent
        (bam_aux_del : bam1_t -> list byte -> bam1_t)
        (a : bam1_t) (tag : string) (es : list aux_tag) :
  tags_are a es ->
  existsb (has_key tag) es = false ->
  RemoveTag bam_aux_del a tag = Returns a.
Proof.
  intros [Haux Hok] Hkey. unfold RemoveTag, bam_aux_get.
  rewrite Haux, <- (app_nil_r (encode_tags es)).
  rewrite aux_scan_absent; [simp aux_scan; reflexivity | exact Hok |].
  rewrite <- Hkey. apply existsb_ext_eq. intros e. apply key16_eqb.
Qed.

Lemma RemoveTag_absent_witness :
  RemoveTag (fun a _ => RemoveAllTags a) tagged_read "XP" = Returns tagged_read.
Proof.
  apply (RemoveTag_absent _ tagged_read "XP"
           [ {| tag_k0 := byte_of_ascii "N"; tag_k1 := byte_of_ascii "M";
                tag_type := byte_of_ascii "i";
                tag_payload := Int.le32_bytes 2 |};
             {| tag_k0 := byte_of_ascii "R"; tag_k1 := byte_of_ascii "G";
                tag_type := byte_of_ascii "Z";
                tag_payload := [byte_of_ascii "g"; byte_of_ascii "1"; x00] |} ]).
  - split; vm_compute; reflexivity.
  - reflexivity.
Defined.

(** ** Read group *)

Lemma index_of_split ch s :
  forall n,
    index_of ch s = Some n ->
    index_of ch (substring 0 n s) = None
    /\ exists rest, s = (substring 0 n s ++ String ch rest)%string.
Proof.
  induction s as [|x s IH]; intros n Hn; cbn [index_of] in Hn; [discriminate|].
  destruct (ascii_dec x ch) as [-> | Hne].
  - injection Hn as <-. cbn. split; [reflexivity|]. exists s. reflexivity.
  - destruct (index_of ch s) as [i|] eqn:Ei; [|discriminate].
    injection Hn as <-. destruct (IH i eq_refl) as [Hnone [rest Hrest]].
    cbn [substring index_of].
    destruct (ascii_dec x ch); [contradiction|].
    rewrite Hnone. split; [reflexivity|].
    exists rest. cbn [append]. rewrite <- Hrest. reflexivity.
Qed.

(** X24. [ParseReadGroup] returns the RG tag when it is not empty;
    otherwise the part of the name before its first colon, which holds no
    colon, and the text [NA] when the name has no colon. *)
Theorem ParseReadGroup_cases
        (GetZTag : bam1_t -> string -> string) (a : bam1_t) :
  (GetZTag a "RG"%string <> ""%string ->
   ParseReadGroup GetZTag a = GetZTag a "RG"%string)
  /\ (GetZTag a "RG"%string = ""%string ->
      index_of ":" (Qname a) = None ->
      ParseReadGroup GetZTag a = "NA"%string)
  /\ (GetZTag a "RG"%string = ""%string ->
      forall n, index_of ":" (Qname a) = Some n ->
      index_of ":" (ParseReadGroup GetZTag a) = None
      /\ exists rest,
           Qname a = (ParseReadGroup GetZTag a ++ String ":" rest)%string).
Proof.
  unfold ParseReadGroup. cbv zeta. split; [|split].
  - intros Hne. destruct (GetZTag a "RG"%string) as [|x s]; [contradiction|].
    reflexivity.
  - intros -> Hnone. cbn [String.length Nat.eqb negb]. rewrite Hnone.
    reflexivity.
  - intros -> n Hn. cbn [String.length Nat.eqb negb]. rewrite Hn.
    apply index_of_split, Hn.
Qed.

Lemma ParseReadGroup_cases_witness :
  ParseReadGroup (fun _ _ => ""%string) named_read = "lane7"%string
  /\ index_of ":" (ParseReadGroup (fun _ _ => ""%string) named_read) = None.
Proof.
  destruct (ParseReadGroup_cases (fun _ _ => ""%string) named_read)
    as (_ & _ & H).
  destruct (H eq_refl 5%nat eq_refl) as [Hnone _].
  split; [reflexivity | exact Hnone].
Defined.
